(** * themida-unmutate: the binary patch and relocation engine

    A shallow embedding of [themida_unmutate/main.py]: the construction of
    the address-to-CFG dictionary in [entry_point], and the phases of
    [rebuild_simplified_binary] (packing of the simplified functions into
    the new section, application of the patches, generation of the
    redirecting jumps).

    Python integers are unbounded, so addresses and offsets are [Z].
    Python dictionaries iterate in insertion order, so they are association
    lists whose keys are kept unique by [dict_set].  Exceptions are the
    [Raise] results of an error type. *)

From Stdlib Require Import ZArith Lia Strings.Byte Strings.Ascii Strings.HexString.
From stdpp Require Import gmap strings list fin_maps.

Local Open Scope Z_scope.

(** ** Exceptions and results *)

Inductive exn : Type :=
  | ValueError        (* raise ValueError(...), min()/max() of an empty sequence *)
  | Exception         (* raise Exception(...) *)
  | IndexError        (* list index out of range *)
  | KeyError          (* missing dictionary key *)
  | TypeError         (* an operation applied to None *)
  | AssertionError    (* a failed assert *)
  | StopIteration     (* next() on an exhausted iterator *)
  | AsmError.         (* the assembler could not lay out the CFG *)

Inductive result (A : Type) : Type :=
  | Ok (a : A)
  | Raise (e : exn).
Arguments Ok {A} a.
Arguments Raise {A} e.

Definition result_bind {A B} (f : A → result B) (r : result A) : result B :=
  match r with
  | Ok a => f a
  | Raise e => Raise e
  end.

#[global] Instance result_mbind : MBind result := @result_bind.
#[global] Instance result_mret : MRet result := @Ok.

Definition of_option {A} (e : exn) (o : option A) : result A :=
  match o with
  | Some a => Ok a
  | None => Raise e
  end.

(** ** Python dictionaries with integer keys *)

Abbreviation dict V := (list (Z * V)%type).

Definition dict_keys {V} (d : dict V) : list Z := d.*1.

Fixpoint dict_get {V} (d : dict V) (k : Z) : option V :=
  match d with
  | [] => None
  | (k', v) :: d' => if decide (k' = k) then Some v else dict_get d' k
  end.

(** [d[k] = v]: an existing key keeps its position and takes the new value,
    a new key goes to the end. *)
Fixpoint dict_set {V} (d : dict V) (k : Z) (v : V) : dict V :=
  match d with
  | [] => [(k, v)]
  | (k', v') :: d' =>
      if decide (k' = k) then (k, v) :: d' else (k', v') :: dict_set d' k v
  end.

(** [min(d.keys())] and [max(d.keys())]; both raise on an empty sequence. *)
Definition min_keys (ks : list Z) : result Z :=
  match ks with
  | [] => Raise ValueError
  | k :: ks' => Ok (foldl Z.min k ks')
  end.

Definition max_keys (ks : list Z) : result Z :=
  match ks with
  | [] => Raise ValueError
  | k :: ks' => Ok (foldl Z.max k ks')
  end.

(** ** Patches *)

Abbreviation bytes := (list byte).

(** One item of the dictionary returned by the assembler: the address and
    the bytes to write there. *)
Abbreviation patch := (Z * list byte)%type.

Definition patch_end (p : patch) : Z := p.1 + Z.of_nat (length p.2).

(** ** Locations *)

Abbreviation LocKey := positive.

(** Modelled from the spec: the location database behind [miasm_ctx.loc_db]
    is not part of the sources.  It is the table of section 9, mapping
    symbolic locations to optional concrete addresses with bind, unbind and
    lookup, together with the table of named locations that the assembly
    parser fills.  A location missing from [loc_key_to_offset] is unbound. *)
Record LocationDB : Type := {
  loc_key_to_offset : gmap LocKey Z;
  name_to_loc_key : gmap string LocKey;
  loc_key_num : LocKey;
}.

Definition get_location_offset (db : LocationDB) (l : LocKey) : option Z :=
  loc_key_to_offset db !! l.

(** Modelled from the spec: lookup by address, some location bound to
    [offset] when there is one. *)
Definition get_offset_location (db : LocationDB) (offset : Z) : option LocKey :=
  fst <$> head (filter (λ kv, kv.2 = offset) (map_to_list (loc_key_to_offset db))).

Definition get_name_location (db : LocationDB) (name : string) : option LocKey :=
  name_to_loc_key db !! name.

(** Modelled from the spec: bind. *)
Definition set_location_offset (db : LocationDB) (l : LocKey) (offset : Z)
  : LocationDB :=
  {| loc_key_to_offset := <[l := offset]> (loc_key_to_offset db);
     name_to_loc_key := name_to_loc_key db;
     loc_key_num := loc_key_num db |}.

(** Modelled from the spec: unbind; on an unbound location it changes
    nothing. *)
Definition unset_location_offset (db : LocationDB) (l : LocKey) : LocationDB :=
  {| loc_key_to_offset := delete l (loc_key_to_offset db);
     name_to_loc_key := name_to_loc_key db;
     loc_key_num := loc_key_num db |}.

(** Modelled from the spec: the location of a label, created unbound the
    first time the label is met. *)
Definition get_or_create_name_location (db : LocationDB) (name : string)
  : LocationDB * LocKey :=
  match name_to_loc_key db !! name with
  | Some l => (db, l)
  | None =>
      let l := loc_key_num db in
      ({| loc_key_to_offset := loc_key_to_offset db;
          name_to_loc_key := <[name := l]> (name_to_loc_key db);
          loc_key_num := Pos.succ l |}, l)
  end.

(** ** Control-flow graphs *)

(** The engine builds one instruction itself, the unconditional jump of a
    redirect; every other instruction is opaque to it and is kept as the
    bytes it assembles to. *)
Inductive instruction : Type :=
  | JMP (dst : Z)
  | Opaque (data : bytes).

Record AsmBlock : Type := {
  loc_key : LocKey;
  lines : list instruction;
}.

(** [heads] is the result of [AsmCFG.heads()]: the source reads its first
    element and never the edges it is computed from. *)
Record AsmCFG : Type := {
  blocks : list AsmBlock;
  heads : list LocKey;
}.

(** A placement constraint, as passed to [interval([...])]. *)
Abbreviation interval := (list (Z * Z)).

(** ** Relocating the entry block (lines 117-124) *)

(** [for ir_block in simplified_asmcfg.blocks:
       miasm_ctx.loc_db.unset_location_offset(ir_block.loc_key)] *)
Definition unpin_blocks (db : LocationDB) (bs : list AsmBlock) : LocationDB :=
  foldl (λ db b, unset_location_offset db (loc_key b)) db bs.

(** The head is read first ([heads()[0]] raises on a graph without head),
    every block is unpinned, then the head is pinned at [target]. *)
Definition relocate_entry (db : LocationDB) (cfg : AsmCFG) (target : Z)
  : result (LocKey * LocationDB) :=
  hd ← of_option IndexError (heads cfg !! 0%nat);
  let db := unpin_blocks db (blocks cfg) in
  Ok (hd, set_location_offset db hd target).

(** ** The assembler *)

(** [asm_resolve_final(arch, cfg, dst_interval=...)] belongs to the external
    assembler.  It reads and updates the location database and returns the
    dictionary of patches, or raises.  The engine is parametric in it. *)
Definition assembler : Type :=
  LocationDB → AsmCFG → option interval → result (LocationDB * list patch).

(** ** Packing the simplified functions (lines 111-144) *)

Definition NEW_SECTION_NAME : string := ".unmut".
Definition NEW_SECTION_MAX_SIZE : Z := 2 ^ 16.

(** What one iteration of the packing loop did: the values of its local
    variables when the assembler was called, and what the assembler
    returned. *)
Record relocation : Type := {
  rel_func_addr : Z;               (* protected_func_addr *)
  rel_cursor : Z;                  (* next_min_offset_for_asm on entry *)
  rel_head : LocKey;               (* head *)
  rel_loc_db : LocationDB;         (* the database given to the assembler *)
  rel_cfg : AsmCFG;                (* simplified_asmcfg *)
  rel_interval : option interval;  (* dst_interval *)
  rel_patches : list patch;        (* new_section_patches *)
}.

(** The variables the packing loop updates, with the log of its
    iterations. *)
Record pack_state : Type := {
  pk_loc_db : LocationDB;
  original_to_simplified : dict Z;
  next_min_offset_for_asm : Z;
  unmut_section_patches : list patch;
  relocations : list relocation;
}.

Definition pack_step (asm : assembler) (unmut_section_base virtual_size : Z)
    (st : pack_state) (item : Z * AsmCFG) : result pack_state :=
  let protected_func_addr := item.1 in
  let simplified_asmcfg := item.2 in
  let c := next_min_offset_for_asm st in
  '(hd, db) ← relocate_entry (pk_loc_db st) simplified_asmcfg
                 (unmut_section_base + c);
  let dst_interval :=
    [(unmut_section_base + c, unmut_section_base + virtual_size - c)] in
  '(db', new_section_patches) ← asm db simplified_asmcfg (Some dst_interval);
  lo ← min_keys new_section_patches.*1;
  hi ← max_keys new_section_patches.*1;
  Ok {| pk_loc_db := db';
        original_to_simplified :=
          dict_set (original_to_simplified st) protected_func_addr lo;
        next_min_offset_for_asm := hi - unmut_section_base + 15;
        unmut_section_patches :=
          unmut_section_patches st ++ new_section_patches;
        relocations :=
          relocations st ++
          [{| rel_func_addr := protected_func_addr;
              rel_cursor := c;
              rel_head := hd;
              rel_loc_db := db;
              rel_cfg := simplified_asmcfg;
              rel_interval := Some dst_interval;
              rel_patches := new_section_patches |}] |}.

Fixpoint pack_loop (asm : assembler) (unmut_section_base virtual_size : Z)
    (items : list (Z * AsmCFG)) (st : pack_state) : result pack_state :=
  match items with
  | [] => Ok st
  | item :: items' =>
      st' ← pack_step asm unmut_section_base virtual_size st item;
      pack_loop asm unmut_section_base virtual_size items' st'
  end.

Definition pack_init (db : LocationDB) : pack_state :=
  {| pk_loc_db := db;
     original_to_simplified := [];
     next_min_offset_for_asm := 0;
     unmut_section_patches := [];
     relocations := [] |}.

Definition pack (asm : assembler) (unmut_section_base virtual_size : Z)
    (db : LocationDB) (func_addr_to_simplified_cfg : dict AsmCFG)
  : result pack_state :=
  pack_loop asm unmut_section_base virtual_size func_addr_to_simplified_cfg
    (pack_init db).

(** ** Applying patches (lines 149-151 and 190-192) *)

(** The bounds of a slice [b[lo:hi]] of a sequence of [len] elements: a
    negative index counts from the end, and both are clamped to the
    sequence. *)
Definition adjust_index (len i : Z) : Z :=
  if decide (i < 0) then Z.max 0 (i + len) else Z.min i len.

(** [b[lo:hi] = data] on a bytearray: the slice is replaced by [data],
    whatever their lengths. *)
Definition setslice (b : bytes) (lo hi : Z) (data : bytes) : bytes :=
  let len := Z.of_nat (length b) in
  let start := adjust_index len lo in
  let stop := Z.max start (adjust_index len hi) in
  take (Z.to_nat start) b ++ data ++ drop (Z.to_nat stop) b.

(** [offset = addr - section_base;
     content[offset:offset + len(data)] = data] *)
Definition write_patch (section_base : Z) (content : bytes) (p : patch)
  : bytes :=
  let offset := p.1 - section_base in
  setslice content offset (offset + Z.of_nat (length p.2)) p.2.

(** The loop over the patches.  No statement of it can raise; the result
    type records that. *)
Definition apply_patches (section_base : Z) (content : bytes)
    (patches : list patch) : result bytes :=
  Ok (foldl (write_patch section_base) content patches).

(** ** Redirecting the original functions (lines 160-185) *)

(** Python's [f"{z:x}"]: lower-case hexadecimal digits, no prefix, a minus
    sign before the digits of a negative number. *)
Definition format_x (z : Z) : string :=
  match z with
  | Z0 => "0"
  | Zpos p => HexString.Raw.of_pos p ""
  | Zneg p => "-" +:+ HexString.Raw.of_pos p ""
  end.

(** Modelled from the spec: [parse_asm.parse_txt] is not part of the
    sources.  On the two lines ["<label>:"] and ["JMP 0x<dst>"] it gives the
    single-block CFG of section 4.4, [jmp_stub]: one block, labelled by the
    location of the name [label], holding one unconditional jump to
    [dst]. *)
Definition jmp_stub (l : LocKey) (dst : Z) : AsmCFG :=
  {| blocks := [{| loc_key := l; lines := [JMP dst] |}]; heads := [l] |}.

Definition parse_txt (db : LocationDB) (label : string) (dst : Z)
  : LocationDB * AsmCFG :=
  let '(db', l) := get_or_create_name_location db label in
  (db', jmp_stub l dst).

(** What one iteration of the redirect loop did. *)
Record redirect : Type := {
  red_target_addr : Z;             (* target_addr *)
  red_simplified_func_addr : Z;    (* simplified_func_addr *)
  red_original_loc : LocKey;       (* original_loc, line 178 *)
  red_parsed_db : LocationDB;      (* the database after parse_txt *)
  red_loc_db : LocationDB;         (* the database given to the assembler *)
  red_cfg : AsmCFG;                (* jmp_unmut_asmcfg *)
  red_interval : option interval;  (* dst_interval, left to its default *)
  red_patches : list patch;        (* new_jmp_patches *)
}.

Record redirect_state : Type := {
  rd_loc_db : LocationDB;
  unmut_jmp_patches : list patch;
  redirects : list redirect;
}.

(** Lines 172-175: unpin the location found at [target_addr], if any. *)
Definition unpin_offset (db : LocationDB) (target_addr : Z) : LocationDB :=
  match get_offset_location db target_addr with
  | Some original_loc => unset_location_offset db original_loc
  | None => db
  end.

Definition redirect_step (asm : assembler) (original_to_simplified : dict Z)
    (st : redirect_state) (target_addr : Z) : result redirect_state :=
  simplified_func_addr ←
    of_option KeyError (dict_get original_to_simplified target_addr);
  let original_loc_str := "loc_" +:+ format_x target_addr in
  let '(db0, jmp_unmut_asmcfg) :=
    parse_txt (rd_loc_db st) original_loc_str simplified_func_addr in
  let db1 := unpin_offset db0 target_addr in
  original_loc ← of_option TypeError (get_name_location db1 original_loc_str);
  let db2 := set_location_offset db1 original_loc target_addr in
  '(db', new_jmp_patches) ← asm db2 jmp_unmut_asmcfg None;
  Ok {| rd_loc_db := db';
        unmut_jmp_patches := unmut_jmp_patches st ++ new_jmp_patches;
        redirects :=
          redirects st ++
          [{| red_target_addr := target_addr;
              red_simplified_func_addr := simplified_func_addr;
              red_original_loc := original_loc;
              red_parsed_db := db0;
              red_loc_db := db2;
              red_cfg := jmp_unmut_asmcfg;
              red_interval := None;
              red_patches := new_jmp_patches |}] |}.

Fixpoint redirect_loop (asm : assembler) (original_to_simplified : dict Z)
    (protected_function_addrs : list Z) (st : redirect_state)
  : result redirect_state :=
  match protected_function_addrs with
  | [] => Ok st
  | target_addr :: addrs' =>
      st' ← redirect_step asm original_to_simplified st target_addr;
      redirect_loop asm original_to_simplified addrs' st'
  end.

Definition make_redirects (asm : assembler) (db : LocationDB)
    (original_to_simplified : dict Z) (protected_function_addrs : list Z)
  : result redirect_state :=
  redirect_loop asm original_to_simplified protected_function_addrs
    {| rd_loc_db := db; unmut_jmp_patches := []; redirects := [] |}.

(** ** The executable image *)

Record PESection : Type := {
  name : string;
  virtual_address : Z;
  virtual_size : Z;
  size : Z;
  content : bytes;
  characteristics : Z;
}.

(** [next_virtual_address] is where the format places the next section
    appended to the image. *)
Record Binary : Type := {
  imagebase : Z;
  sections : list PESection;
  next_virtual_address : Z;
}.

(** [CNT_CODE | MEM_READ | MEM_EXECUTE] *)
Definition CODE_READ_EXECUTE : Z :=
  Z.lor (Z.lor 0x20 0x40000000) 0x20000000.

(** [lief.PE.Section([0] * NEW_SECTION_MAX_SIZE, NEW_SECTION_NAME, ...)] *)
Definition new_unmut_section : PESection :=
  {| name := NEW_SECTION_NAME;
     virtual_address := 0;
     virtual_size := 0;
     size := NEW_SECTION_MAX_SIZE;
     content := replicate (Z.to_nat NEW_SECTION_MAX_SIZE) x00;
     characteristics := CODE_READ_EXECUTE |}.

(** Modelled from the spec: [add_section] belongs to the executable
    builder.  As in section 4.1 the section is appended to the image, which
    gives it its base address, and its capacity is the size of its
    content. *)
Definition add_section (pe : Binary) (s : PESection) : Binary :=
  let placed :=
    {| name := name s;
       virtual_address := next_virtual_address pe;
       virtual_size := Z.of_nat (length (content s));
       size := size s;
       content := content s;
       characteristics := characteristics s |} in
  {| imagebase := imagebase pe;
     sections := sections pe ++ [placed];
     next_virtual_address :=
       next_virtual_address pe + Z.of_nat (length (content s)) |}.

(** [pe_obj.get_section(name)]: the first section of that name.  Sections
    are objects of the image; a handle on one is its index. *)
Definition get_section (pe : Binary) (n : string) : option (nat * PESection) :=
  list_find (λ s, name s = n) (sections pe).

(** [section.content = memoryview(data)] on the section of index [i]. *)
Definition set_content (pe : Binary) (i : nat) (data : bytes) : Binary :=
  {| imagebase := imagebase pe;
     sections :=
       alter (λ s, {| name := name s;
                      virtual_address := virtual_address s;
                      virtual_size := virtual_size s;
                      size := size s;
                      content := data;
                      characteristics := characteristics s |}) i (sections pe);
     next_virtual_address := next_virtual_address pe |}.

(** Lines 203-210. *)
Definition section_from_virtual_address (pe : Binary) (virtual_addr : Z)
  : option (nat * PESection) :=
  list_find (λ s, virtual_address s ≤ virtual_addr
                  ∧ virtual_addr < virtual_address s + size s) (sections pe).

(** ** The whole rebuild (lines 81-200) *)

(** How a run ends: the exception raised if any, the image in memory when
    the run stopped ([None] while nothing was parsed), and the file written
    ([None] unless the run reached [builder.write]). *)
Record outcome : Type := {
  raised : option exn;
  image : option Binary;
  written : option Binary;
}.

Definition abort (e : exn) (img : option Binary) : outcome :=
  {| raised := Some e; image := img; written := None |}.

(** Lines 146-193, once the packing is done. *)
Definition patch_image (asm : assembler) (pe_obj : Binary) (unmut : nat)
    (unmut_section_base : Z) (func_addr_to_simplified_cfg : dict AsmCFG)
    (st : pack_state) : outcome :=
  let image_base := imagebase pe_obj in
  let new_section_size := next_min_offset_for_asm st in
  match apply_patches unmut_section_base
          (replicate (Z.to_nat new_section_size) x00)
          (unmut_section_patches st) with
  | Raise e => abort e (Some pe_obj)
  | Ok new_content =>
  let pe_obj := set_content pe_obj unmut new_content in
  let protected_function_addrs := dict_keys func_addr_to_simplified_cfg in
  match protected_function_addrs !! 0%nat with
  | None => abort StopIteration (Some pe_obj)
  | Some first_addr =>
  let target_rva := first_addr - image_base in
  match section_from_virtual_address pe_obj target_rva with
  | None => abort AssertionError (Some pe_obj)
  | Some (text, text_section) =>
  match make_redirects asm (pk_loc_db st) (original_to_simplified st)
          protected_function_addrs with
  | Raise e => abort e (Some pe_obj)
  | Ok rd =>
  let text_section_base := image_base + virtual_address text_section in
  match apply_patches text_section_base (content text_section)
          (unmut_jmp_patches rd) with
  | Raise e => abort e (Some pe_obj)
  | Ok text_section_bytes =>
  let pe_obj := set_content pe_obj text text_section_bytes in
  {| raised := None; image := Some pe_obj; written := Some pe_obj |}
  end end end end end.

(** [parsed] is what [lief.PE.parse(input_binary_path)] returns. *)
Definition rebuild_simplified_binary (asm : assembler) (loc_db : LocationDB)
    (func_addr_to_simplified_cfg : dict AsmCFG) (parsed : option Binary)
  : outcome :=
  if decide (length func_addr_to_simplified_cfg = 0%nat) then
    abort ValueError None
  else
  match parsed with
  | None => abort Exception None
  | Some pe_obj =>
  let pe_obj := add_section pe_obj new_unmut_section in
  match get_section pe_obj NEW_SECTION_NAME with
  | None => abort TypeError (Some pe_obj)
  | Some (unmut, unmut_section) =>
  let image_base := imagebase pe_obj in
  let unmut_section_base := image_base + virtual_address unmut_section in
  match pack asm unmut_section_base (virtual_size unmut_section) loc_db
          func_addr_to_simplified_cfg with
  | Raise e => abort e (Some pe_obj)
  | Ok st =>
      patch_image asm pe_obj unmut unmut_section_base
        func_addr_to_simplified_cfg st
  end end end.

(** ** The dictionary of [entry_point] (lines 34-37) *)

(** [{protected_func_addrs[i]: asm_cfg
      for i, asm_cfg in enumerate(simplified_func_asmcfgs)}] *)
Fixpoint func_map_from (protected_func_addrs : list Z) (i : nat)
    (simplified_func_asmcfgs : list AsmCFG) (d : dict AsmCFG)
  : result (dict AsmCFG) :=
  match simplified_func_asmcfgs with
  | [] => Ok d
  | asm_cfg :: cfgs' =>
      addr ← of_option IndexError (protected_func_addrs !! i);
      func_map_from protected_func_addrs (S i) cfgs' (dict_set d addr asm_cfg)
  end.

Definition func_addr_to_simplified_cfg (protected_func_addrs : list Z)
    (simplified_func_asmcfgs : list AsmCFG) : result (dict AsmCFG) :=
  func_map_from protected_func_addrs 0 simplified_func_asmcfgs [].

(** One write of the comprehension: [d[kv.1] = kv.2]. *)
Definition set_item (d : dict AsmCFG) (kv : Z * AsmCFG) : dict AsmCFG :=
  dict_set d kv.1 kv.2.

(** ** Assemblers and a decoder for the examples

    The external assembler is a parameter of the engine.  The examples run
    the engine with the two assemblers below, which lay the blocks out one
    after the other from the lower bound of the interval (a pinned block
    stays where it is pinned) and refuse a layout that leaves the interval.
    [instruction_asm] returns a patch per instruction, [block_asm] a patch
    per block. *)

Definition byte_of_Z (z : Z) : byte :=
  default x00 (Byte.of_N (Z.to_N (z `mod` 256))).

Definition le32 (z : Z) : bytes :=
  [byte_of_Z z; byte_of_Z (z ≫ 8); byte_of_Z (z ≫ 16); byte_of_Z (z ≫ 24)].

(** The near jump [E9 rel32], relative to the end of the instruction. *)
Definition encode (offset : Z) (i : instruction) : option bytes :=
  match i with
  | JMP dst =>
      let rel := dst - (offset + 5) in
      if decide (- 2 ^ 31 ≤ rel < 2 ^ 31)
      then Some (xe9 :: le32 (rel `mod` 2 ^ 32))
      else None
  | Opaque data => Some data
  end.

Fixpoint assemble_lines (offset : Z) (ls : list instruction)
  : option (list patch) :=
  match ls with
  | [] => Some []
  | i :: ls' =>
      data ← encode offset i;
      ps ← assemble_lines (offset + Z.of_nat (length data)) ls';
      Some (if decide (data = []) then ps else (offset, data) :: ps)
  end.

(** The patches of a block as one patch. *)
Definition join_patches (offset : Z) (ps : list patch) : list patch :=
  match ps with
  | [] => []
  | _ => [(offset, concat ps.*2)]
  end.

Definition patches_end (offset : Z) (ps : list patch) : Z :=
  foldl (λ e p, Z.max e (patch_end p)) offset ps.

Fixpoint assemble_blocks (per_block : bool) (db : LocationDB) (cursor : Z)
    (bs : list AsmBlock) : option (LocationDB * list patch) :=
  match bs with
  | [] => Some (db, [])
  | b :: bs' =>
      let offset := default cursor (get_location_offset db (loc_key b)) in
      ps ← assemble_lines offset (lines b);
      let ps := if per_block then join_patches offset ps else ps in
      '(db', ps') ← assemble_blocks per_block
                      (set_location_offset db (loc_key b) offset)
                      (patches_end offset ps) bs';
      Some (db', ps ++ ps')
  end.

Definition inside (lo hi : Z) (p : patch) : bool :=
  bool_decide (lo ≤ p.1 ∧ patch_end p ≤ hi).

Definition example_asm (per_block : bool) : assembler :=
  λ db cfg dst_interval,
    match dst_interval with
    | None => of_option AsmError (assemble_blocks per_block db 0 (blocks cfg))
    | Some [(lo, hi)] =>
        '(db', ps) ← of_option AsmError
                       (assemble_blocks per_block db lo (blocks cfg));
        if forallb (inside lo hi) ps then Ok (db', ps) else Raise AsmError
    | Some _ => Raise AsmError
    end.

Definition instruction_asm : assembler := example_asm false.
Definition block_asm : assembler := example_asm true.

Definition Z_of_byte (b : byte) : Z := Z.of_N (Byte.to_N b).

(** The decoder of the near jump. *)
Definition decode (offset : Z) (data : bytes) : option (list instruction) :=
  match data with
  | [op; b0; b1; b2; b3] =>
      if Byte.eqb op xe9 then
        let u := Z_of_byte b0 + 2 ^ 8 * Z_of_byte b1
                 + 2 ^ 16 * Z_of_byte b2 + 2 ^ 24 * Z_of_byte b3 in
        let rel := if decide (u < 2 ^ 31) then u else u - 2 ^ 32 in
        Some [JMP (offset + 5 + rel)]
      else None
  | _ => None
  end.

(** The inputs of the examples: an empty location database, an image with
    one code section at [0x401000], and two simplified functions. *)
Definition empty_db : LocationDB :=
  {| loc_key_to_offset := ∅; name_to_loc_key := ∅; loc_key_num := 100 |}.

Definition text_section_example : PESection :=
  {| name := ".text";
     virtual_address := 0x1000;
     virtual_size := 0x40;
     size := 0x40;
     content := replicate 64 x90;
     characteristics := CODE_READ_EXECUTE |}.

Definition image_example : Binary :=
  {| imagebase := 0x400000;
     sections := [text_section_example];
     next_virtual_address := 0x2000 |}.

Definition cfg_two_blocks : AsmCFG :=
  {| blocks := [ {| loc_key := 1; lines := [Opaque [x31; xc0]; Opaque [x40]] |};
                 {| loc_key := 2; lines := [Opaque [xc3]] |} ];
     heads := [1%positive] |}.

Definition cfg_one_block : AsmCFG :=
  {| blocks := [ {| loc_key := 3; lines := [Opaque [x90]; Opaque [xc3]] |} ];
     heads := [3%positive] |}.

(** A block of four five-byte instructions. *)
Definition cfg_long_block : AsmCFG :=
  {| blocks := [ {| loc_key := 4;
                    lines := replicate 4
                               (Opaque [xb8; x01; x00; x00; x00]) |} ];
     heads := [4%positive] |}.

Definition funcs_example : dict AsmCFG :=
  [(0x401000, cfg_two_blocks); (0x401020, cfg_one_block)].

(** The state of a packing that succeeded. *)
Definition packed (r : result pack_state) : pack_state :=
  match r with
  | Ok st => st
  | Raise _ => pack_init empty_db
  end.

Definition packed_example : pack_state :=
  packed (pack instruction_asm 0x402000 0x10000 empty_db funcs_example).

(** The same packing with a patch per block, after a function made of one
    block of twenty bytes. *)
Definition funcs_long_example : dict AsmCFG :=
  [(0x401000, cfg_long_block); (0x401020, cfg_one_block)].

Definition packed_blocks_example : pack_state :=
  packed (pack block_asm 0x402000 0x10000 empty_db funcs_long_example).

(** ** What the assembler is expected to answer

    The engine relies on the assembler for the following, on the calls of a
    run.  They are stated on the log of the run and are decidable. *)

(** No patch starts below the lower bound of the interval of the call. *)
Definition placed_in_interval (r : relocation) : Prop :=
  match rel_interval r with
  | Some [(lo, hi)] => Forall (λ p : patch, lo ≤ p.1) (rel_patches r)
  | _ => True
  end.

(** The pinned head is emitted where it is pinned. *)
Definition head_emitted (r : relocation) : Prop :=
  match get_location_offset (rel_loc_db r) (rel_head r) with
  | Some a => a ∈ (rel_patches r).*1
  | None => True
  end.

(** No patch is longer than an instruction of the target architecture can
    be, fifteen bytes. *)
Definition short_patches (r : relocation) : Prop :=
  Forall (λ p : patch, (length p.2 ≤ 15)%nat) (rel_patches r).

#[global] Instance placed_in_interval_dec r : Decision (placed_in_interval r).
Proof.
  unfold placed_in_interval.
  destruct (rel_interval r) as [[|[lo hi] [|? ?]]|]; apply _.
Defined.

#[global] Instance head_emitted_dec r : Decision (head_emitted r).
Proof.
  unfold head_emitted.
  destruct (get_location_offset (rel_loc_db r) (rel_head r)); apply _.
Defined.

#[global] Instance short_patches_dec r : Decision (short_patches r).
Proof. unfold short_patches. apply _. Defined.

(** The addresses a patch writes: [address, address + len(bytes)). *)
Definition covers (p : patch) (x : Z) : Prop := p.1 ≤ x < patch_end p.

(** The entry address recorded for a relocation (line 141). *)
Definition rel_entry (r : relocation) : Z :=
  match min_keys (rel_patches r).*1 with
  | Ok lo => lo
  | Raise _ => 0
  end.

(** The highest patch address of a relocation (line 143). *)
Definition rel_top (r : relocation) : Z :=
  match max_keys (rel_patches r).*1 with
  | Ok hi => hi
  | Raise _ => 0
  end.

(** The maximum end address among the patches of a relocation: the
    consumed high watermark of section 4.2. *)
Definition high_watermark (r : relocation) : result Z :=
  max_keys (patch_end <$> rel_patches r).

(** ** The invariant of the packing loop *)

(** The cursor that follows the relocations [done]: zero at first, then
    line 143 on the last of them. *)
Definition cursor_after (unmut_section_base : Z) (done : list relocation) : Z :=
  match last done with
  | None => 0
  | Some r => rel_top r - unmut_section_base + 15
  end.

(** What holds of every logged relocation. *)
Record relocation_wf (asm : assembler) (unmut_section_base vsize : Z)
    (r : relocation) : Prop := {
  wf_interval :
    rel_interval r
    = Some [(unmut_section_base + rel_cursor r,
             unmut_section_base + vsize - rel_cursor r)];
  wf_head : heads (rel_cfg r) !! 0%nat = Some (rel_head r);
  wf_head_bound :
    get_location_offset (rel_loc_db r) (rel_head r)
    = Some (unmut_section_base + rel_cursor r);
  wf_blocks_unbound :
    ∀ b, b ∈ blocks (rel_cfg r) → loc_key b ≠ rel_head r →
         get_location_offset (rel_loc_db r) (loc_key b) = None;
  wf_asm :
    ∃ db', asm (rel_loc_db r) (rel_cfg r) (rel_interval r)
           = Ok (db', rel_patches r);
  wf_patches : rel_patches r ≠ [];
}.

Record pack_inv (asm : assembler) (unmut_section_base vsize : Z)
    (done : list (Z * AsmCFG)) (st : pack_state) : Prop := {
  inv_addrs : rel_func_addr <$> relocations st = done.*1;
  inv_cfgs : rel_cfg <$> relocations st = done.*2;
  inv_patches :
    unmut_section_patches st = concat (rel_patches <$> relocations st);
  inv_wf :
    Forall (relocation_wf asm unmut_section_base vsize) (relocations st);
  inv_next :
    next_min_offset_for_asm st
    = cursor_after unmut_section_base (relocations st);
  inv_cursor :
    ∀ i r, relocations st !! i = Some r →
           rel_cursor r
           = cursor_after unmut_section_base (take i (relocations st));
  inv_map :
    original_to_simplified st
    = foldl (λ d r, dict_set d (rel_func_addr r) (rel_entry r)) []
        (relocations st);
}.

(** ** The invariant of the redirect loop *)

#[global] Instance byte_eq_decision : EqDecision byte := Byte.byte_eq_dec.

#[global] Instance instruction_eq_decision : EqDecision instruction.
Proof. solve_decision. Defined.

(** What holds of every logged redirect. *)
Record redirect_wf (asm : assembler) (original_to_simplified : dict Z)
    (r : redirect) : Prop := {
  rwf_dest :
    dict_get original_to_simplified (red_target_addr r)
    = Some (red_simplified_func_addr r);
  rwf_cfg :
    red_cfg r = jmp_stub (red_original_loc r) (red_simplified_func_addr r);
  rwf_name :
    get_name_location (red_parsed_db r)
      ("loc_" +:+ format_x (red_target_addr r))
    = Some (red_original_loc r);
  rwf_loc_db :
    red_loc_db r
    = set_location_offset
        (unpin_offset (red_parsed_db r) (red_target_addr r))
        (red_original_loc r) (red_target_addr r);
  rwf_interval : red_interval r = None;
  rwf_asm :
    ∃ db', asm (red_loc_db r) (red_cfg r) (red_interval r)
           = Ok (db', red_patches r);
}.

Record redirect_inv (asm : assembler) (original_to_simplified : dict Z)
    (done : list Z) (st : redirect_state) : Prop := {
  rinv_targets : red_target_addr <$> redirects st = done;
  rinv_patches :
    unmut_jmp_patches st = concat (red_patches <$> redirects st);
  rinv_wf : Forall (redirect_wf asm original_to_simplified) (redirects st);
}.

(** What the assembler is expected to answer on a graph of one block
    pinned at an address: one patch, at that address, whose bytes decode
    there to the instructions of the block. *)
Definition stub_assembled (decoder : Z → bytes → option (list instruction))
    (r : redirect) : Prop :=
  match blocks (red_cfg r) with
  | [b] =>
      match get_location_offset (red_loc_db r) (loc_key b), red_patches r with
      | Some a, [(a', data)] => a' = a ∧ decoder a data = Some (lines b)
      | Some _, _ => False
      | None, _ => True
      end
  | _ => True
  end.

#[global] Instance stub_assembled_dec decoder r :
  Decision (stub_assembled decoder r).
Proof.
  unfold stub_assembled.
  destruct (blocks (red_cfg r)) as [|b [|? ?]]; try apply _.
  destruct (get_location_offset (red_loc_db r) (loc_key b)); try apply _.
  destruct (red_patches r) as [|[a' data] [|? ?]]; apply _.
Defined.

(** The redirects of the examples: the database knows a location at the
    first original address, left there by the disassembly. *)
Definition disassembled_db : LocationDB :=
  {| loc_key_to_offset := {[ 50%positive := 0x401000 ]};
     name_to_loc_key := ∅;
     loc_key_num := 100 |}.

Definition relocation_map_example : dict Z :=
  [(0x401000, 0x402000); (0x401020, 0x402012)].

Definition redirected (r : result redirect_state) : redirect_state :=
  match r with
  | Ok st => st
  | Raise _ => {| rd_loc_db := empty_db; unmut_jmp_patches := [];
                  redirects := [] |}
  end.

Definition redirected_example : redirect_state :=
  redirected (make_redirects instruction_asm disassembled_db
                relocation_map_example [0x401000; 0x401020]).

(** ** Resolving the mutated code (lines 63-78) *)

(** [unwrap_function(target_binary_path, addr)] belongs to the external
    unwrapper; for a given binary it is a function of the address, and it
    may raise.  [mutated_func_addrs] is the list built so far. *)
Fixpoint unwrap_loop (unwrap_function : Z → result Z)
    (target_function_addrs mutated_func_addrs : list Z) : result (list Z) :=
  match target_function_addrs with
  | [] => Ok mutated_func_addrs
  | addr :: addrs' =>
      mutated_code_addr ← unwrap_function addr;
      if decide (mutated_code_addr = addr) then Raise Exception
      else unwrap_loop unwrap_function addrs'
             (mutated_func_addrs ++ [mutated_code_addr])
  end.

Definition unwrap_functions (unwrap_function : Z → result Z)
    (target_function_addrs : list Z) : result (list Z) :=
  unwrap_loop unwrap_function target_function_addrs [].

(** ** The entry point (lines 17-41)

    The addresses are taken after [int(addr, 0)].  [miasm_context] is what
    the construction of [MiasmContext] gives, the location database or an
    exception; [disassemble_and_simplify_functions] belongs to the external
    simplifier, which works on that database. *)
Definition entry_point (asm : assembler) (miasm_context : result LocationDB)
    (unwrap_function : Z → result Z)
    (disassemble_and_simplify_functions :
       LocationDB → list Z → result (LocationDB * list AsmCFG))
    (protected_func_addrs : list Z) (parsed : option Binary) : outcome :=
  match miasm_context with
  | Raise e => abort e None
  | Ok loc_db =>
  match unwrap_functions unwrap_function protected_func_addrs with
  | Raise e => abort e None
  | Ok mutated_func_addrs =>
  match disassemble_and_simplify_functions loc_db mutated_func_addrs with
  | Raise e => abort e None
  | Ok (loc_db, simplified_func_asmcfgs) =>
  match func_addr_to_simplified_cfg protected_func_addrs
          simplified_func_asmcfgs with
  | Raise e => abort e None
  | Ok cfgs => rebuild_simplified_binary asm loc_db cfgs parsed
  end end end end.

(** ** Further notions used in the properties *)

(** The patch lies within a buffer of [n] bytes that starts at
    [section_base]. *)
Definition in_range (section_base : Z) (n : nat) (p : patch) : Prop :=
  0 ≤ p.1 - section_base
  ∧ p.1 - section_base + Z.of_nat (length p.2) ≤ Z.of_nat n.

(** Everything of a section but its content. *)
Definition section_header (s : PESection) : string * Z * Z * Z * Z :=
  (name s, virtual_address s, virtual_size s, size s, characteristics s).

(** The raw range of the section holds the address (lines 206). *)
Definition holds_address (virtual_addr : Z) (s : PESection) : Prop :=
  virtual_address s ≤ virtual_addr ∧ virtual_addr < virtual_address s + size s.

(** The string does not start with a minus sign. *)
Definition head_is_not_minus (s : string) : Prop :=
  match s with
  | EmptyString => True
  | String c _ => c ≠ "-"%char
  end.

(** An unwrapper for the examples: the function at [0x401020] is not
    mutated, every other one has its code [0x1500] bytes further. *)
Definition unwrap_example (addr : Z) : result Z :=
  if decide (addr = 0x401020) then Ok addr else Ok (addr + 0x1500).

(** A simplifier for the examples: it answers the two example graphs. *)
Definition simplify_example (db : LocationDB) (addrs : list Z)
  : result (LocationDB * list AsmCFG) :=
  Ok (db, take (length addrs) [cfg_two_blocks; cfg_one_block]).

(** * Properties *)

(** ** The location database *)

Lemma get_set_eq db l a :
  get_location_offset (set_location_offset db l a) l = Some a.
Proof. apply lookup_insert_eq. Qed.

Lemma get_set_ne db l l' a :
  l ≠ l' →
  get_location_offset (set_location_offset db l a) l' = get_location_offset db l'.
Proof. intros Hne. by apply lookup_insert_ne. Qed.

Lemma get_unset_eq db l :
  get_location_offset (unset_location_offset db l) l = None.
Proof. apply lookup_delete_eq. Qed.

Lemma get_unset_ne db l l' :
  l ≠ l' →
  get_location_offset (unset_location_offset db l) l' = get_location_offset db l'.
Proof. intros Hne. by apply lookup_delete_ne. Qed.

Lemma get_unset_Some db l l' a :
  get_location_offset (unset_location_offset db l) l' = Some a →
  l ≠ l' ∧ get_location_offset db l' = Some a.
Proof.
  destruct (decide (l = l')) as [->|Hne].
  - by rewrite get_unset_eq.
  - by rewrite get_unset_ne.
Qed.

Lemma unset_unbound db l :
  get_location_offset db l = None → unset_location_offset db l = db.
Proof.
  destruct db as [offs names num]; unfold get_location_offset,
    unset_location_offset; simpl.
  intros Hnone. by rewrite delete_id.
Qed.

Lemma get_name_unset db l n :
  get_name_location (unset_location_offset db l) n = get_name_location db n.
Proof. done. Qed.

Lemma get_offset_location_Some db a l :
  get_offset_location db a = Some l → get_location_offset db l = Some a.
Proof.
  unfold get_offset_location, get_location_offset.
  destruct (head _) as [[l' a']|] eqn:Hhd; [|done].
  intros [= ->]. apply head_Some_elem_of, list_elem_of_filter in Hhd.
  destruct Hhd as [Ha Hin]; simpl in Ha; subst a'.
  by apply elem_of_map_to_list in Hin.
Qed.

Lemma get_offset_location_None db a l :
  get_offset_location db a = None → get_location_offset db l ≠ Some a.
Proof.
  unfold get_offset_location, get_location_offset.
  destruct (head _) as [kv|] eqn:Hhd; [done|]. intros _ Hl.
  apply head_None in Hhd.
  apply (filter_nil_not_elem_of _ _ (l, a)) in Hhd; [|done].
  apply Hhd. by apply elem_of_map_to_list.
Qed.

Lemma get_unpin_blocks_in db bs b :
  b ∈ bs → get_location_offset (unpin_blocks db bs) (loc_key b) = None.
Proof.
  unfold unpin_blocks. revert db.
  induction bs as [|b' bs IH] using rev_ind; intros db Hin.
  - by apply elem_of_nil in Hin.
  - rewrite foldl_app; simpl. apply elem_of_app in Hin as [Hin|Hin].
    + destruct (decide (loc_key b' = loc_key b)) as [<-|Hne].
      * apply get_unset_eq.
      * rewrite get_unset_ne; [|done]. by apply IH.
    + apply list_elem_of_singleton in Hin as ->. apply get_unset_eq.
Qed.

Lemma get_unpin_blocks_Some db bs l a :
  get_location_offset (unpin_blocks db bs) l = Some a →
  get_location_offset db l = Some a ∧ ∀ b, b ∈ bs → loc_key b ≠ l.
Proof.
  intros Hget. split.
  - revert Hget. unfold unpin_blocks.
    induction bs as [|b' bs IH] using rev_ind; [done|].
    rewrite foldl_app; simpl. intros Hget.
    apply get_unset_Some in Hget as [_ Hget]. by apply IH.
  - intros b Hin <-. by rewrite get_unpin_blocks_in in Hget.
Qed.

(** What [relocate_entry] leaves in the database. *)
Lemma relocate_entry_Ok db cfg target hd db' :
  relocate_entry db cfg target = Ok (hd, db') →
  heads cfg !! 0%nat = Some hd
  ∧ db' = set_location_offset (unpin_blocks db (blocks cfg)) hd target.
Proof.
  unfold relocate_entry. destruct (heads cfg !! 0%nat) as [h|]; simpl; [|done].
  by intros [= -> <-].
Qed.

Lemma relocate_entry_head db cfg target hd :
  heads cfg !! 0%nat = Some hd →
  relocate_entry db cfg target
  = Ok (hd, set_location_offset (unpin_blocks db (blocks cfg)) hd target).
Proof. unfold relocate_entry. by intros ->. Qed.

(** C8: unbinding an unbound location leaves the database as it is, and
    relocating the entry of a CFG a second time, at another address and
    whatever the database has become in between, succeeds and leaves its
    head bound to the second address and every other block unbound: no
    location of the CFG keeps the first address. *)
Theorem unbinding_idempotent (db : LocationDB) (cfg : AsmCFG) (hd : LocKey)
    (a1 a2 : Z) :
  heads cfg !! 0%nat = Some hd →
  a1 ≠ a2 →
  (∀ l, get_location_offset db l = None → unset_location_offset db l = db)
  ∧ ∃ db1,
      relocate_entry db cfg a1 = Ok (hd, db1)
      ∧ get_location_offset db1 hd = Some a1
      ∧ ∀ db1', ∃ db2,
          relocate_entry db1' cfg a2 = Ok (hd, db2)
          ∧ get_location_offset db2 hd = Some a2
          ∧ (∀ b, b ∈ blocks cfg → loc_key b ≠ hd →
                  get_location_offset db2 (loc_key b) = None)
          ∧ (∀ b, b ∈ blocks cfg →
                  get_location_offset db2 (loc_key b) ≠ Some a1)
          ∧ get_location_offset db2 hd ≠ Some a1.
Proof.
  intros Hhd Hne. split; [apply unset_unbound|].
  eexists. split; [by apply relocate_entry_head|].
  split; [apply get_set_eq|]. intros db1'.
  eexists. split; [by apply relocate_entry_head|].
  assert (Hother : ∀ b, b ∈ blocks cfg → loc_key b ≠ hd →
            get_location_offset
              (set_location_offset (unpin_blocks db1' (blocks cfg)) hd a2)
              (loc_key b) = None).
  { intros b Hin Hb. rewrite get_set_ne; [|done]. by apply get_unpin_blocks_in. }
  split; [apply get_set_eq|]. split; [exact Hother|]. split.
  - intros b Hin. destruct (decide (loc_key b = hd)) as [->|Hb].
    + rewrite get_set_eq. congruence.
    + by rewrite Hother.
  - rewrite get_set_eq. congruence.
Qed.

Lemma unbinding_idempotent_witness :
  heads cfg_two_blocks !! 0%nat = Some 1%positive
  ∧ ∃ db1 db2,
      relocate_entry empty_db cfg_two_blocks 0x402000 = Ok (1%positive, db1)
      ∧ relocate_entry db1 cfg_two_blocks 0x402100 = Ok (1%positive, db2)
      ∧ get_location_offset db2 1%positive = Some 0x402100
      ∧ get_location_offset db2 2%positive = None.
Proof.
  split; [reflexivity|].
  destruct (unbinding_idempotent empty_db cfg_two_blocks 1%positive
              0x402000 0x402100) as [_ (db1 & H1 & _ & H2)];
    [reflexivity | lia |].
  destruct (H2 db1) as (db2 & H3 & H4 & H5 & _).
  exists db1, db2. repeat split; [exact H1 | exact H3 | exact H4 |].
  apply (H5 {| loc_key := 2; lines := [Opaque [xc3]] |}).
  - right. left.
  - simpl. lia.
Defined.

(** ** Keys of a dictionary of patches *)

Lemma foldl_min_le k ks : foldl Z.min k ks ≤ k ∧ Forall (λ x, foldl Z.min k ks ≤ x) ks.
Proof.
  revert k. induction ks as [|x ks IH]; intros k; simpl; [split; [lia|constructor]|].
  destruct (IH (Z.min k x)) as [H1 H2]. split; [lia|].
  constructor; [lia|done].
Qed.

Lemma foldl_min_in k ks : foldl Z.min k ks ∈ k :: ks.
Proof.
  revert k. induction ks as [|x ks IH]; intros k; simpl; [left|].
  specialize (IH (Z.min k x)). apply elem_of_cons in IH as [IH|IH].
  - rewrite IH. destruct (Z.min_spec k x) as [[_ ->]|[_ ->]];
      [left | right; left].
  - right. by right.
Qed.

Lemma foldl_max_ge k ks : k ≤ foldl Z.max k ks ∧ Forall (λ x, x ≤ foldl Z.max k ks) ks.
Proof.
  revert k. induction ks as [|x ks IH]; intros k; simpl; [split; [lia|constructor]|].
  destruct (IH (Z.max k x)) as [H1 H2]. split; [lia|].
  constructor; [lia|done].
Qed.

Lemma foldl_max_in k ks : foldl Z.max k ks ∈ k :: ks.
Proof.
  revert k. induction ks as [|x ks IH]; intros k; simpl; [left|].
  specialize (IH (Z.max k x)). apply elem_of_cons in IH as [IH|IH].
  - rewrite IH. destruct (Z.max_spec k x) as [[_ ->]|[_ ->]];
      [right; left | left].
  - right. by right.
Qed.

Lemma min_keys_Ok ks lo :
  min_keys ks = Ok lo → lo ∈ ks ∧ ∀ k, k ∈ ks → lo ≤ k.
Proof.
  destruct ks as [|k ks]; simpl; [done|]. intros [= <-].
  split; [apply foldl_min_in|]. intros x Hx.
  destruct (foldl_min_le k ks) as [H1 H2]. apply elem_of_cons in Hx as [->|Hx]; [done|].
  rewrite Forall_forall in H2. by apply H2.
Qed.

Lemma max_keys_Ok ks hi :
  max_keys ks = Ok hi → hi ∈ ks ∧ ∀ k, k ∈ ks → k ≤ hi.
Proof.
  destruct ks as [|k ks]; simpl; [done|]. intros [= <-].
  split; [apply foldl_max_in|]. intros x Hx.
  destruct (foldl_max_ge k ks) as [H1 H2]. apply elem_of_cons in Hx as [->|Hx]; [done|].
  rewrite Forall_forall in H2. by apply H2.
Qed.

(** ** The packing loop *)

Section Packing.
Variable asm : assembler.
Variables unmut_section_base vsize : Z.

Lemma pack_step_Ok st item st' :
  pack_step asm unmut_section_base vsize st item = Ok st' →
  let c := next_min_offset_for_asm st in
  let dst := [(unmut_section_base + c, unmut_section_base + vsize - c)] in
  ∃ hd db db' ps lo hi,
    relocate_entry (pk_loc_db st) item.2 (unmut_section_base + c)
    = Ok (hd, db)
    ∧ asm db item.2 (Some dst) = Ok (db', ps)
    ∧ min_keys ps.*1 = Ok lo
    ∧ max_keys ps.*1 = Ok hi
    ∧ st' = {| pk_loc_db := db';
               original_to_simplified :=
                 dict_set (original_to_simplified st) item.1 lo;
               next_min_offset_for_asm := hi - unmut_section_base + 15;
               unmut_section_patches := unmut_section_patches st ++ ps;
               relocations :=
                 relocations st ++
                 [{| rel_func_addr := item.1;
                     rel_cursor := c;
                     rel_head := hd;
                     rel_loc_db := db;
                     rel_cfg := item.2;
                     rel_interval := Some dst;
                     rel_patches := ps |}] |}.
Proof.
  unfold pack_step. intros Hstep.
  destruct (relocate_entry _ _ _) as [[hd db]|] eqn:Hrel; simpl in Hstep;
    [|done].
  destruct (asm db _ _) as [[db' ps]|] eqn:Hasm; simpl in Hstep; [|done].
  destruct (min_keys _) as [lo|] eqn:Hlo; simpl in Hstep; [|done].
  destruct (max_keys _) as [hi|] eqn:Hhi; simpl in Hstep; [|done].
  injection Hstep as <-. by exists hd, db, db', ps, lo, hi.
Qed.

(** Induction on the loop, with an invariant indexed by the items
    already processed. *)
Lemma pack_loop_invariant (I : list (Z * AsmCFG) → pack_state → Prop) :
  (∀ done st item st',
      I done st →
      pack_step asm unmut_section_base vsize st item = Ok st' →
      I (done ++ [item]) st') →
  ∀ items done st st',
    I done st →
    pack_loop asm unmut_section_base vsize items st = Ok st' →
    I (done ++ items) st'.
Proof.
  intros Hstep items.
  induction items as [|item items IH]; intros done st st' Hinv Hloop;
    simpl in Hloop.
  - injection Hloop as <-. by rewrite app_nil_r.
  - destruct (pack_step _ _ _ st item) as [st1|] eqn:H1; simpl in Hloop;
      [|done].
    rewrite (assoc_L (++) done [item] items : done ++ item :: items = _).
    eapply IH; [|done]. by eapply Hstep.
Qed.

Lemma pack_inv_init db :
  pack_inv asm unmut_section_base vsize [] (pack_init db).
Proof. split; simpl; done. Qed.

Lemma pack_inv_step done st item st' :
  pack_inv asm unmut_section_base vsize done st →
  pack_step asm unmut_section_base vsize st item = Ok st' →
  pack_inv asm unmut_section_base vsize (done ++ [item]) st'.
Proof.
  intros [Ha Hc Hp Hwf Hn Hcur Hmap] Hstep.
  apply pack_step_Ok in Hstep
    as (hd & db & db' & ps & lo & hi & Hrel & Hasm & Hlo & Hhi & ->).
  apply relocate_entry_Ok in Hrel as [Hhd ->].
  assert (Hps : ps ≠ []) by (by intros ->).
  split; simpl.
  - by rewrite !fmap_app, Ha.
  - by rewrite !fmap_app, Hc.
  - rewrite fmap_app, concat_app, Hp; simpl. by rewrite app_nil_r.
  - apply Forall_app. split; [done|]. constructor; [|constructor].
    split; simpl; try done.
    + apply get_set_eq.
    + intros b Hb Hne. rewrite get_set_ne; [|done].
      by apply get_unpin_blocks_in.
    + by exists db'.
  - unfold cursor_after. rewrite last_snoc. unfold rel_top; simpl.
    by rewrite Hhi.
  - intros i r Hi.
    destruct (decide (i < length (relocations st))%nat) as [Hlt|Hge].
    + rewrite lookup_app_l in Hi by done.
      rewrite take_app_le by lia. by apply Hcur.
    + rewrite lookup_app_r in Hi by lia.
      apply list_lookup_singleton_Some in Hi as [Hi <-]; simpl.
      replace i with (length (relocations st)) by lia.
      rewrite take_app_length. done.
  - rewrite foldl_app; simpl. rewrite <- Hmap. unfold rel_entry; simpl.
    by rewrite Hlo.
Qed.

Lemma pack_invariant db items st :
  pack asm unmut_section_base vsize db items = Ok st →
  pack_inv asm unmut_section_base vsize items st.
Proof.
  intros Hpack.
  apply (pack_loop_invariant (pack_inv asm unmut_section_base vsize)
           pack_inv_step items [] _ _ (pack_inv_init db) Hpack).
Qed.

End Packing.

(** ** Dictionaries *)

Lemma dict_set_fresh {V} (d : dict V) k v :
  k ∉ dict_keys d → dict_set d k v = d ++ [(k, v)].
Proof.
  unfold dict_keys. induction d as [|[k' v'] d IH]; simpl; [done|].
  intros Hnin. apply not_elem_of_cons in Hnin as [Hne Hnin].
  destruct (decide (k' = k)); [congruence|]. by rewrite IH.
Qed.

Lemma dict_get_elem {V} (d : dict V) k v :
  NoDup (dict_keys d) → (k, v) ∈ d → dict_get d k = Some v.
Proof.
  unfold dict_keys. induction d as [|[k' v'] d IH]; simpl; intros Hnd Hin.
  - by apply elem_of_nil in Hin.
  - apply NoDup_cons in Hnd as [Hnin Hnd].
    apply elem_of_cons in Hin as [[= <- <-]|Hin].
    + by destruct (decide (k = k)).
    + destruct (decide (k' = k)) as [->|Hne]; [|by apply IH].
      exfalso. apply Hnin. apply list_elem_of_fmap. by exists (k, v).
Qed.

Lemma dict_get_Some_elem {V} (d : dict V) k v :
  dict_get d k = Some v → (k, v) ∈ d.
Proof.
  induction d as [|[k' v'] d IH]; simpl; [done|].
  destruct (decide (k' = k)) as [->|Hne].
  - intros [= ->]. left.
  - intros Hget. right. by apply IH.
Qed.

Lemma foldl_dict_set_fresh {A} (key : A → Z) (val : A → Z) (l : list A)
    (d : dict Z) :
  NoDup (dict_keys d ++ (key <$> l)) →
  foldl (λ d r, dict_set d (key r) (val r)) d l
  = d ++ ((λ r, (key r, val r)) <$> l).
Proof.
  revert d. induction l as [|r l IH]; intros d Hnd; simpl.
  - by rewrite app_nil_r.
  - simpl in Hnd. rewrite dict_set_fresh.
    + rewrite IH.
      * by rewrite <- (assoc_L (++)).
      * unfold dict_keys in *. rewrite fmap_app; simpl.
        by rewrite <- (assoc_L (++)).
    + apply NoDup_app in Hnd as (_ & Hdisj & _).
      intros Hin. apply (Hdisj _ Hin). left.
Qed.

(** ** The layout after a successful packing *)

Section PackedLayout.
Variable asm : assembler.
Variables unmut_section_base vsize : Z.
Variable db : LocationDB.
Variable items : dict AsmCFG.
Variable st : pack_state.
Hypothesis Hpack : pack asm unmut_section_base vsize db items = Ok st.

Lemma packed_wf r :
  r ∈ relocations st → relocation_wf asm unmut_section_base vsize r.
Proof.
  intros Hin. destruct (pack_invariant _ _ _ _ _ _ Hpack) as [_ _ _ Hwf _ _ _].
  rewrite Forall_forall in Hwf. by apply Hwf.
Qed.

Lemma packed_keys r :
  r ∈ relocations st →
  min_keys (rel_patches r).*1 = Ok (rel_entry r)
  ∧ max_keys (rel_patches r).*1 = Ok (rel_top r).
Proof.
  intros Hin. destruct (packed_wf r Hin) as [_ _ _ _ _ Hne].
  unfold rel_entry, rel_top. by destruct (rel_patches r) as [|p ps].
Qed.

Lemma packed_first r :
  relocations st !! 0%nat = Some r → rel_cursor r = 0.
Proof.
  intros H0. destruct (pack_invariant _ _ _ _ _ _ Hpack) as [_ _ _ _ _ Hcur _].
  by rewrite (Hcur _ _ H0).
Qed.

Lemma packed_next i r r' :
  relocations st !! i = Some r →
  relocations st !! S i = Some r' →
  rel_cursor r' = rel_top r - unmut_section_base + 15.
Proof.
  intros Hi Hi'.
  destruct (pack_invariant _ _ _ _ _ _ Hpack) as [_ _ _ _ _ Hcur _].
  rewrite (Hcur _ _ Hi'). unfold cursor_after.
  apply lookup_lt_Some in Hi' as Hlen.
  rewrite last_lookup, length_take, Nat.min_l by lia; simpl.
  rewrite lookup_take_lt by lia. by rewrite Hi.
Qed.

Lemma packed_final :
  next_min_offset_for_asm st
  = cursor_after unmut_section_base (relocations st).
Proof. by destruct (pack_invariant _ _ _ _ _ _ Hpack). Qed.

(** Within one relocation whose patches respect the interval: the cursor
    is below every patch, the entry and the top are patch addresses. *)
Lemma packed_bounds r p :
  r ∈ relocations st → placed_in_interval r → p ∈ rel_patches r →
  unmut_section_base + rel_cursor r ≤ p.1 ∧ p.1 ≤ rel_top r
  ∧ unmut_section_base + rel_cursor r ≤ rel_entry r ∧ rel_entry r ≤ p.1.
Proof.
  intros Hin Hplaced Hp.
  destruct (packed_keys r Hin) as [Hlo Hhi].
  apply min_keys_Ok in Hlo as [Hlo1 Hlo2].
  apply max_keys_Ok in Hhi as [Hhi1 Hhi2].
  destruct (packed_wf r Hin) as [Hitv _ _ _ _ _].
  unfold placed_in_interval in Hplaced. rewrite Hitv in Hplaced.
  rewrite Forall_forall in Hplaced.
  assert (Hk : p.1 ∈ (rel_patches r).*1) by (apply list_elem_of_fmap; eauto).
  apply list_elem_of_fmap in Hlo1 as (q & Hq & Hqin). rewrite Hq.
  repeat split; [by apply Hplaced | by apply Hhi2 | by apply Hplaced |].
  rewrite <- Hq. by apply Hlo2.
Qed.

Lemma packed_nonempty r :
  r ∈ relocations st → ∃ p, p ∈ rel_patches r.
Proof.
  intros Hin. destruct (packed_wf r Hin) as [_ _ _ _ _ Hne].
  destruct (rel_patches r) as [|p ps]; [done|]. exists p. left.
Qed.

(** A later function starts at least fifteen bytes above the highest patch
    address of an earlier one. *)
Lemma packed_order i j r r' :
  Forall placed_in_interval (relocations st) →
  (i < j)%nat →
  relocations st !! i = Some r →
  relocations st !! j = Some r' →
  rel_top r + 15 ≤ unmut_section_base + rel_cursor r'.
Proof.
  intros Hplaced Hlt Hi. revert r'.
  induction j as [|j IH]; intros r' Hj; [lia|].
  destruct (lookup_lt_is_Some_2 (relocations st) j) as [rj Hrj].
  { apply lookup_lt_Some in Hj. lia. }
  rewrite (packed_next j rj r' Hrj Hj).
  destruct (decide (i = j)) as [->|Hne].
  - replace rj with r by congruence. lia.
  - assert (Hle : rel_top r + 15 ≤ unmut_section_base + rel_cursor rj)
      by (apply IH; [lia|done]).
    apply list_elem_of_lookup_2 in Hrj as Hrjin.
    destruct (packed_nonempty rj Hrjin) as [p Hp].
    rewrite Forall_forall in Hplaced.
    destruct (packed_bounds rj p Hrjin (Hplaced _ Hrjin) Hp) as (? & ? & _).
    lia.
Qed.

End PackedLayout.

(** ** The cursor and the placement interval *)

Lemma packed_example_Ok :
  pack instruction_asm 0x402000 0x10000 empty_db funcs_example
  = Ok packed_example.
Proof. vm_compute. reflexivity. Qed.

(** C3, as stated, fails: with the first function assembled to the patches
    at [0x402000] (two bytes), [0x402002] and [0x402003] (one byte each),
    the maximum end address is [0x402004], so the claimed cursor of the
    second function is [4 + 15]; the code uses [3 + 15]. *)
Lemma cursor_is_not_end_address_plus_padding :
  ∃ st r1 r2 hw,
    pack instruction_asm 0x402000 0x10000 empty_db funcs_example = Ok st
    ∧ relocations st = [r1; r2]
    ∧ high_watermark r1 = Ok hw
    ∧ hw - 0x402000 + 15 = 19
    ∧ rel_cursor r2 = 18.
Proof.
  eexists _, _, _, _. split; [exact packed_example_Ok|].
  split; [vm_compute; reflexivity|].
  split; [vm_compute; reflexivity|]. split; reflexivity.
Qed.

(** C3 (amended): the cursor of the function that follows function [i] is
    the maximum patch address (not end address) among the patches of
    function [i], minus the section base, plus 15; the first cursor is 0.
    No end address is computed; when no patch of function [i] is longer
    than 15 bytes, that cursor is not below the consumed high watermark
    of function [i]. *)
Theorem next_cursor_from_highest_patch_address (asm : assembler)
    (base vsize : Z) (db : LocationDB) (items : dict AsmCFG)
    (st : pack_state) (i : nat) (r r' : relocation) :
  pack asm base vsize db items = Ok st →
  relocations st !! i = Some r →
  relocations st !! S i = Some r' →
  max_keys (rel_patches r).*1 = Ok (rel_top r)
  ∧ rel_cursor r' = rel_top r - base + 15
  ∧ (∀ r0, relocations st !! 0%nat = Some r0 → rel_cursor r0 = 0)
  ∧ (short_patches r →
     ∀ hw, high_watermark r = Ok hw → hw - base ≤ rel_cursor r').
Proof.
  intros Hpack Hi Hi'.
  apply list_elem_of_lookup_2 in Hi as Hin.
  destruct (packed_keys _ _ _ _ _ _ Hpack r Hin) as [_ Hhi].
  split; [done|]. split; [by eapply packed_next|].
  split; [intros r0; by eapply packed_first|].
  intros Hshort hw Hhw. rewrite (packed_next _ _ _ _ _ _ Hpack i r r' Hi Hi').
  apply max_keys_Ok in Hhw as [Hhw _].
  apply list_elem_of_fmap in Hhw as (p & -> & Hp).
  apply max_keys_Ok in Hhi as [_ Hhi].
  unfold short_patches in Hshort. rewrite Forall_forall in Hshort.
  specialize (Hshort p Hp).
  assert (p.1 ≤ rel_top r) by (apply Hhi, list_elem_of_fmap; eauto).
  unfold patch_end. lia.
Qed.

Lemma next_cursor_from_highest_patch_address_witness :
  ∃ r r',
    relocations packed_example !! 0%nat = Some r
    ∧ relocations packed_example !! 1%nat = Some r'
    ∧ max_keys (rel_patches r).*1 = Ok 0x402003
    ∧ rel_cursor r' = 0x402003 - 0x402000 + 15.
Proof.
  destruct (relocations packed_example !! 0%nat) as [r|] eqn:H0;
    [|by vm_compute in H0].
  destruct (relocations packed_example !! 1%nat) as [r'|] eqn:H1;
    [|by vm_compute in H1].
  exists r, r'. split; [reflexivity|]. split; [reflexivity|].
  destruct (next_cursor_from_highest_patch_address instruction_asm
              0x402000 0x10000 empty_db funcs_example packed_example
              0 r r' packed_example_Ok H0 H1) as (Hmax & Hcur & _).
  assert (Htop : rel_top r = 0x402003).
  { vm_compute in H0. injection H0 as <-. vm_compute. reflexivity. }
  rewrite Htop in Hmax, Hcur. split; [exact Hmax | exact Hcur].
Defined.

(** C4: for every function relocated at cursor [c], the interval given to
    the assembler is [(base + c, base + vsize - c)]: its upper bound is the
    end of the section only for [c = 0], and moves down by [c] for every
    later function. *)
Theorem placement_interval_upper_bound_follows_cursor (asm : assembler)
    (base vsize : Z) (db : LocationDB) (items : dict AsmCFG)
    (st : pack_state) (r : relocation) :
  pack asm base vsize db items = Ok st →
  r ∈ relocations st →
  rel_interval r
  = Some [(base + rel_cursor r, base + vsize - rel_cursor r)]
  ∧ (rel_interval r = Some [(base + rel_cursor r, base + vsize)]
     ↔ rel_cursor r = 0).
Proof.
  intros Hpack Hin.
  destruct (packed_wf _ _ _ _ _ _ Hpack r Hin) as [Hitv _ _ _ _ _].
  split; [done|]. rewrite Hitv. split.
  - intros [= Heq]. lia.
  - intros ->. do 3 f_equal. lia.
Qed.

Lemma placement_interval_upper_bound_follows_cursor_witness :
  ∃ r,
    relocations packed_example !! 1%nat = Some r
    ∧ rel_cursor r = 18
    ∧ rel_interval r = Some [(0x402000 + 18, 0x402000 + 0x10000 - 18)]
    ∧ rel_interval r ≠ Some [(0x402000 + 18, 0x402000 + 0x10000)].
Proof.
  destruct (relocations packed_example !! 1%nat) as [r|] eqn:H1;
    [|by vm_compute in H1].
  exists r. split; [reflexivity|].
  assert (Hc : rel_cursor r = 18).
  { vm_compute in H1. injection H1 as <-. reflexivity. }
  destruct (placement_interval_upper_bound_follows_cursor instruction_asm
              0x402000 0x10000 empty_db funcs_example packed_example r
              packed_example_Ok (list_elem_of_lookup_2 _ _ _ H1))
    as [Hitv Hiff].
  rewrite Hc in Hitv, Hiff. split; [exact Hc|]. split; [exact Hitv|].
  intros Heq. apply Hiff in Heq. discriminate Heq.
Defined.

(** ** Order and separation of the packed functions *)

Lemma packed_map (asm : assembler) (base vsize : Z) (db : LocationDB)
    (items : dict AsmCFG) (st : pack_state) :
  NoDup (dict_keys items) →
  pack asm base vsize db items = Ok st →
  original_to_simplified st
  = (λ r, (rel_func_addr r, rel_entry r)) <$> relocations st.
Proof.
  intros Hnd Hpack.
  destruct (pack_invariant _ _ _ _ _ _ Hpack) as [Ha _ _ _ _ _ Hmap].
  rewrite Hmap. rewrite foldl_dict_set_fresh; [done|]. simpl. by rewrite Ha.
Qed.

(** C5: after a successful packing in which no patch starts below the
    lower bound of its placement interval, the relocation map lists the
    original addresses in input order, and its relocated entry addresses
    are strictly increasing in that order. *)
Theorem relocated_entries_strictly_increasing (asm : assembler)
    (base vsize : Z) (db : LocationDB) (items : dict AsmCFG)
    (st : pack_state) :
  NoDup (dict_keys items) →
  pack asm base vsize db items = Ok st →
  Forall placed_in_interval (relocations st) →
  dict_keys (original_to_simplified st) = dict_keys items
  ∧ ∀ i j a b x y,
      (i < j)%nat →
      original_to_simplified st !! i = Some (a, x) →
      original_to_simplified st !! j = Some (b, y) →
      x < y.
Proof.
  intros Hnd Hpack Hplaced.
  rewrite (packed_map _ _ _ _ _ _ Hnd Hpack).
  destruct (pack_invariant _ _ _ _ _ _ Hpack) as [Ha _ _ _ _ _ _].
  split.
  - unfold dict_keys. rewrite <- list_fmap_compose. exact Ha.
  - intros i j a b x y Hlt Hi Hj.
    rewrite list_lookup_fmap in Hi, Hj.
    destruct (relocations st !! i) as [r|] eqn:Hri; [|done].
    destruct (relocations st !! j) as [r'|] eqn:Hrj; [|done].
    simpl in Hi, Hj. injection Hi as _ <-. injection Hj as _ <-.
    pose proof (packed_order _ _ _ _ _ _ Hpack i j r r' Hplaced Hlt Hri Hrj)
      as Hord.
    apply list_elem_of_lookup_2 in Hri, Hrj.
    rewrite Forall_forall in Hplaced.
    destruct (packed_nonempty _ _ _ _ _ _ Hpack r Hri) as [p Hp].
    destruct (packed_nonempty _ _ _ _ _ _ Hpack r' Hrj) as [q Hq].
    destruct (packed_bounds _ _ _ _ _ _ Hpack r p Hri (Hplaced _ Hri) Hp)
      as (_ & ? & _ & ?).
    destruct (packed_bounds _ _ _ _ _ _ Hpack r' q Hrj (Hplaced _ Hrj) Hq)
      as (_ & _ & ? & _).
    lia.
Qed.

Lemma relocated_entries_strictly_increasing_witness :
  original_to_simplified packed_example
  = [(0x401000, 0x402000); (0x401020, 0x402012)]
  ∧ dict_keys (original_to_simplified packed_example)
    = dict_keys funcs_example
  ∧ ∀ x y,
      original_to_simplified packed_example !! 0%nat = Some (0x401000, x) →
      original_to_simplified packed_example !! 1%nat = Some (0x401020, y) →
      x < y.
Proof.
  split; [vm_compute; reflexivity|].
  destruct (relocated_entries_strictly_increasing instruction_asm
              0x402000 0x10000 empty_db funcs_example packed_example)
    as [Hkeys Hlt].
  - compute_done.
  - exact packed_example_Ok.
  - compute_done.
  - split; [exact Hkeys|]. intros x y. apply Hlt. lia.
Defined.

(** C6: for every function relocated by a successful packing, the
    relocation map sends its original address to the minimum address among
    the patches returned for it; when the assembler emits the pinned head
    where it is pinned and no patch below the lower bound of the interval,
    that minimum is the address the head was bound to before assembling. *)
Theorem relocation_map_entry_is_head_address (asm : assembler)
    (base vsize : Z) (db : LocationDB) (items : dict AsmCFG)
    (st : pack_state) (r : relocation) :
  NoDup (dict_keys items) →
  pack asm base vsize db items = Ok st →
  r ∈ relocations st →
  placed_in_interval r →
  head_emitted r →
  dict_get (original_to_simplified st) (rel_func_addr r) = Some (rel_entry r)
  ∧ min_keys (rel_patches r).*1 = Ok (rel_entry r)
  ∧ heads (rel_cfg r) !! 0%nat = Some (rel_head r)
  ∧ get_location_offset (rel_loc_db r) (rel_head r) = Some (rel_entry r)
  ∧ rel_entry r = base + rel_cursor r.
Proof.
  intros Hnd Hpack Hin Hplaced Hemit.
  destruct (packed_keys _ _ _ _ _ _ Hpack r Hin) as [Hlo _].
  destruct (packed_wf _ _ _ _ _ _ Hpack r Hin) as [_ Hhd Hbound _ _ _].
  assert (Hentry : rel_entry r = base + rel_cursor r).
  { unfold head_emitted in Hemit. rewrite Hbound in Hemit.
    apply list_elem_of_fmap in Hemit as (p & Hp & Hpin).
    destruct (packed_bounds _ _ _ _ _ _ Hpack r p Hin Hplaced Hpin)
      as (_ & _ & ? & ?).
    lia. }
  split; [|repeat split; congruence].
  apply dict_get_elem.
  - destruct (pack_invariant _ _ _ _ _ _ Hpack) as [Ha _ _ _ _ _ _].
    rewrite (packed_map _ _ _ _ _ _ Hnd Hpack).
    unfold dict_keys. rewrite <- list_fmap_compose.
    replace (fst ∘ _) with rel_func_addr by done. by rewrite Ha.
  - rewrite (packed_map _ _ _ _ _ _ Hnd Hpack).
    apply list_elem_of_fmap. by exists r.
Qed.

Lemma relocation_map_entry_is_head_address_witness :
  ∃ r,
    relocations packed_example !! 1%nat = Some r
    ∧ rel_func_addr r = 0x401020
    ∧ dict_get (original_to_simplified packed_example) 0x401020
      = Some 0x402012
    ∧ min_keys (rel_patches r).*1 = Ok 0x402012
    ∧ get_location_offset (rel_loc_db r) (rel_head r) = Some 0x402012.
Proof.
  destruct (relocations packed_example !! 1%nat) as [r|] eqn:H1;
    [|by vm_compute in H1].
  exists r. split; [reflexivity|].
  assert (Hr : rel_func_addr r = 0x401020 ∧ rel_entry r = 0x402012
               ∧ placed_in_interval r ∧ head_emitted r).
  { vm_compute in H1. injection H1 as <-.
    split; [reflexivity|]. split; [reflexivity|].
    split; compute_done. }
  destruct Hr as (Haddr & Hentry & Hplaced & Hemit).
  destruct (relocation_map_entry_is_head_address instruction_asm
              0x402000 0x10000 empty_db funcs_example packed_example r)
    as (Hget & Hmin & _ & Hbound & _);
    [ compute_done
    | exact packed_example_Ok
    | exact (list_elem_of_lookup_2 _ _ _ H1)
    | exact Hplaced
    | exact Hemit
    | ].
  rewrite Haddr, Hentry in Hget. rewrite Hentry in Hmin, Hbound.
  split; [exact Haddr|]. split; [exact Hget|]. split; [exact Hmin|exact Hbound].
Defined.

Lemma packed_blocks_example_Ok :
  pack block_asm 0x402000 0x10000 empty_db funcs_long_example
  = Ok packed_blocks_example.
Proof. vm_compute. reflexivity. Qed.

(** C2, as stated, fails: an assembler that returns one patch per block
    and keeps inside the interval it is given places the twenty bytes of
    the first function at [0x402000]; the second function is then placed
    at [0x402000 + 15], inside the first. *)
Lemma packed_functions_can_overlap :
  ∃ st r1 r2 p q,
    pack block_asm 0x402000 0x10000 empty_db funcs_long_example = Ok st
    ∧ relocations st = [r1; r2]
    ∧ placed_in_interval r1
    ∧ placed_in_interval r2
    ∧ p ∈ rel_patches r1
    ∧ q ∈ rel_patches r2
    ∧ covers p 0x40200f
    ∧ covers q 0x40200f.
Proof.
  eexists _, _, _, _, _. split; [exact packed_blocks_example_Ok|].
  split; [vm_compute; reflexivity|].
  split; [compute_done|]. split; [compute_done|].
  split; [left|]. split; [left|].
  split; vm_compute; split; congruence.
Qed.

Lemma separated_after (asm : assembler) (base vsize : Z) (db : LocationDB)
    (items : dict AsmCFG) (st : pack_state) (i j : nat) (r r' : relocation)
    (p q : patch) :
  pack asm base vsize db items = Ok st →
  Forall placed_in_interval (relocations st) →
  Forall short_patches (relocations st) →
  (i < j)%nat →
  relocations st !! i = Some r →
  relocations st !! j = Some r' →
  p ∈ rel_patches r →
  q ∈ rel_patches r' →
  patch_end p ≤ q.1.
Proof.
  intros Hpack Hplaced Hshort Hlt Hi Hj Hp Hq.
  pose proof (packed_order _ _ _ _ _ _ Hpack i j r r' Hplaced Hlt Hi Hj)
    as Hord.
  apply list_elem_of_lookup_2 in Hi, Hj.
  rewrite Forall_forall in Hplaced, Hshort.
  destruct (packed_bounds _ _ _ _ _ _ Hpack r p Hi (Hplaced _ Hi) Hp)
    as (_ & ? & _).
  destruct (packed_bounds _ _ _ _ _ _ Hpack r' q Hj (Hplaced _ Hj) Hq)
    as (? & _).
  specialize (Hshort r Hi). unfold short_patches in Hshort.
  rewrite Forall_forall in Hshort. specialize (Hshort p Hp).
  unfold patch_end. lia.
Qed.

(** C2 (amended): after a successful packing in which no patch starts
    below the lower bound of its placement interval and no patch is longer
    than 15 bytes, no address is written both by a patch of one function
    and by a patch of another function. *)
Theorem packed_functions_do_not_overlap (asm : assembler) (base vsize : Z)
    (db : LocationDB) (items : dict AsmCFG) (st : pack_state) (i j : nat)
    (r r' : relocation) (p q : patch) (x : Z) :
  pack asm base vsize db items = Ok st →
  Forall placed_in_interval (relocations st) →
  Forall short_patches (relocations st) →
  i ≠ j →
  relocations st !! i = Some r →
  relocations st !! j = Some r' →
  p ∈ rel_patches r →
  q ∈ rel_patches r' →
  ¬ (covers p x ∧ covers q x).
Proof.
  intros Hpack Hplaced Hshort Hne Hi Hj Hp Hq [[Hp1 Hp2] [Hq1 Hq2]].
  destruct (decide (i < j)%nat) as [Hlt|Hge].
  - pose proof (separated_after _ _ _ _ _ _ i j r r' p q Hpack Hplaced Hshort
                  Hlt Hi Hj Hp Hq). lia.
  - assert (Hlt : (j < i)%nat) by lia.
    pose proof (separated_after _ _ _ _ _ _ j i r' r q p Hpack Hplaced Hshort
                  Hlt Hj Hi Hq Hp). lia.
Qed.

Lemma packed_functions_do_not_overlap_witness :
  ∃ r r' p q,
    relocations packed_example !! 0%nat = Some r
    ∧ relocations packed_example !! 1%nat = Some r'
    ∧ p = (0x402003, [xc3])
    ∧ q = (0x402012, [x90])
    ∧ p ∈ rel_patches r
    ∧ q ∈ rel_patches r'
    ∧ ∀ x, ¬ (covers p x ∧ covers q x).
Proof.
  destruct (relocations packed_example !! 0%nat) as [r|] eqn:H0;
    [|by vm_compute in H0].
  destruct (relocations packed_example !! 1%nat) as [r'|] eqn:H1;
    [|by vm_compute in H1].
  exists r, r', (0x402003, [xc3]), (0x402012, [x90]).
  split; [reflexivity|]. split; [reflexivity|].
  split; [reflexivity|]. split; [reflexivity|].
  assert (Hp : (0x402003, [xc3]) ∈ rel_patches r).
  { vm_compute in H0. injection H0 as <-. simpl. right. right. left. }
  assert (Hq : (0x402012, [x90]) ∈ rel_patches r').
  { vm_compute in H1. injection H1 as <-. simpl. left. }
  split; [exact Hp|]. split; [exact Hq|]. intros x.
  apply (packed_functions_do_not_overlap instruction_asm 0x402000 0x10000
           empty_db funcs_example packed_example 0 1 r r');
    [ exact packed_example_Ok | compute_done | compute_done | lia
    | exact H0 | exact H1 | exact Hp | exact Hq ].
Defined.

(** ** Applying patches *)

(** C7, as stated, fails: a patch one byte below the base of the section
    (offset [-1]) and a patch that runs over the end of the buffer are both
    applied without any failure; the slice assignment inserts the first
    near the end of the buffer and lets the second extend it. *)
Lemma patch_outside_section_is_applied :
  0x0fff - 0x1000 < 0
  ∧ apply_patches 0x1000 [x00; x00; x00; x00] [(0x0fff, [x01; x02])]
    = Ok [x00; x00; x00; x01; x02; x00]
  ∧ (0x1003 - 0x1000) + 2 > 4
  ∧ apply_patches 0x1000 [x00; x00; x00; x00] [(0x1003, [x01; x02])]
    = Ok [x00; x00; x00; x01; x02].
Proof. repeat split. Qed.

Lemma setslice_in_range (b : bytes) (lo : Z) (data : bytes) :
  0 ≤ lo →
  lo + Z.of_nat (length data) ≤ Z.of_nat (length b) →
  setslice b lo (lo + Z.of_nat (length data)) data
  = take (Z.to_nat lo) b ++ data
    ++ drop (Z.to_nat lo + length data) b.
Proof.
  intros Hlo Hhi. unfold setslice, adjust_index.
  repeat case_decide; try lia.
  rewrite !Z.min_l, Z.max_r by lia.
  do 3 f_equal. lia.
Qed.

(** C7 (amended): applying patches never fails, whatever the offsets.  A
    patch whose offset is not negative and which ends within the content
    buffer overwrites the bytes at its offset: the length of the buffer is
    unchanged, the bytes of the patch are found at the offset, and every
    other byte is as before.  The remaining patches are then applied to
    the buffer so written. *)
Theorem patch_application (section_base : Z) (content : bytes) (p : patch)
    (ps : list patch) :
  let offset := p.1 - section_base in
  let written := write_patch section_base content p in
  (∃ out, apply_patches section_base content (p :: ps) = Ok out
          ∧ apply_patches section_base written ps = Ok out)
  ∧ (0 ≤ offset →
     offset + Z.of_nat (length p.2) ≤ Z.of_nat (length content) →
     length written = length content
     ∧ ∀ k : nat,
         ((k < length p.2)%nat →
          written !! (Z.to_nat offset + k)%nat = p.2 !! k)
         ∧ ((k < Z.to_nat offset
             ∨ Z.to_nat offset + length p.2 ≤ k)%nat →
            written !! k = content !! k)).
Proof.
  intros offset written. split; [by eexists|].
  intros Hlo Hhi. subst written. unfold write_patch. fold offset.
  rewrite setslice_in_range by done.
  assert (Hlen : length (take (Z.to_nat offset) content) = Z.to_nat offset)
    by (rewrite length_take; lia).
  split.
  - rewrite !length_app, Hlen, length_drop. lia.
  - intros k. split.
    + intros Hk. rewrite lookup_app_r by lia.
      rewrite Hlen, lookup_app_l by lia. f_equal. lia.
    + intros [Hk|Hk].
      * rewrite lookup_app_l by lia. by rewrite lookup_take_lt.
      * rewrite lookup_app_r by lia. rewrite lookup_app_r by lia.
        rewrite lookup_drop, Hlen. f_equal. lia.
Qed.

Lemma patch_application_witness :
  apply_patches 0x1000 [x00; x00; x00; x00] [(0x1001, [x01; x02])]
  = Ok [x00; x01; x02; x00]
  ∧ length (write_patch 0x1000 [x00; x00; x00; x00] (0x1001, [x01; x02]))
    = 4%nat
  ∧ write_patch 0x1000 [x00; x00; x00; x00] (0x1001, [x01; x02]) !! 2%nat
    = Some x02.
Proof.
  split; [reflexivity|].
  destruct (patch_application 0x1000 [x00; x00; x00; x00]
              (0x1001, [x01; x02]) []) as [_ Hin].
  destruct Hin as [Hlen Hk]; [simpl; lia | simpl; lia |].
  split; [exact Hlen|]. destruct (Hk 1%nat) as [Hk1 _].
  apply Hk1. simpl. lia.
Defined.

(** ** The empty address set *)

(** C9: with an empty dictionary of functions the rebuild raises
    [ValueError] at once, whatever the parser would have returned: nothing
    is parsed, no section is created, no image is changed and no file is
    written; the assembler is never called. *)
Theorem empty_function_set_is_refused_first (asm : assembler)
    (loc_db : LocationDB) (parsed : option Binary) :
  rebuild_simplified_binary asm loc_db [] parsed
  = {| raised := Some ValueError; image := None; written := None |}.
Proof. reflexivity. Qed.

(** ** The redirect loop *)

Lemma parse_txt_stub db label dst db0 cfg :
  parse_txt db label dst = (db0, cfg) →
  ∃ l, cfg = jmp_stub l dst ∧ get_name_location db0 label = Some l.
Proof.
  unfold parse_txt, get_or_create_name_location, get_name_location.
  destruct (name_to_loc_key db !! label) as [l|] eqn:Hname.
  - intros [= <- <-]. by exists l.
  - intros [= <- <-]. eexists. split; [done|]. simpl. apply lookup_insert_eq.
Qed.

Lemma get_name_unpin_offset db a n :
  get_name_location (unpin_offset db a) n = get_name_location db n.
Proof. unfold unpin_offset. by destruct (get_offset_location db a). Qed.

Lemma unpin_offset_unbinds db a l :
  get_offset_location db a = Some l →
  get_location_offset (unpin_offset db a) l = None.
Proof. unfold unpin_offset. intros ->. apply get_unset_eq. Qed.

Section Redirecting.
Variable asm : assembler.
Variable o2s : dict Z.

Lemma redirect_step_Ok st target_addr st' :
  redirect_step asm o2s st target_addr = Ok st' →
  ∃ r,
    red_target_addr r = target_addr
    ∧ redirect_wf asm o2s r
    ∧ redirects st' = redirects st ++ [r]
    ∧ unmut_jmp_patches st' = unmut_jmp_patches st ++ red_patches r.
Proof.
  unfold redirect_step. intros Hstep.
  destruct (dict_get o2s target_addr) as [dst|] eqn:Hdst; simpl in Hstep;
    [|done].
  destruct (parse_txt _ _ _) as [db0 cfg] eqn:Hparse.
  apply parse_txt_stub in Hparse as (l & -> & Hname).
  rewrite get_name_unpin_offset, Hname in Hstep. simpl in Hstep.
  destruct (asm _ _ _) as [[db' ps]|] eqn:Hasm; simpl in Hstep; [|done].
  injection Hstep as <-.
  exists {| red_target_addr := target_addr;
            red_simplified_func_addr := dst;
            red_original_loc := l;
            red_parsed_db := db0;
            red_loc_db :=
              set_location_offset (unpin_offset db0 target_addr) l target_addr;
            red_cfg := jmp_stub l dst;
            red_interval := None;
            red_patches := ps |}.
  split; [done|]. split; [|done].
  split; simpl; try done. by exists db'.
Qed.

Lemma redirect_loop_invariant addrs done st st' :
  redirect_inv asm o2s done st →
  redirect_loop asm o2s addrs st = Ok st' →
  redirect_inv asm o2s (done ++ addrs) st'.
Proof.
  revert done st. induction addrs as [|a addrs IH]; intros done st Hinv Hloop;
    simpl in Hloop.
  - injection Hloop as <-. by rewrite app_nil_r.
  - destruct (redirect_step asm o2s st a) as [st1|] eqn:H1; simpl in Hloop;
      [|done].
    rewrite (assoc_L (++) done [a] addrs : done ++ a :: addrs = _).
    eapply IH; [|done].
    apply redirect_step_Ok in H1 as (r & Hr & Hwf & Hreds & Hps).
    destruct Hinv as [Ht Hp Hw]. split.
    + by rewrite Hreds, fmap_app, Ht, <- Hr.
    + rewrite Hps, Hreds, fmap_app, concat_app, Hp; simpl.
      by rewrite app_nil_r.
    + rewrite Hreds. apply Forall_app. split; [done|]. by constructor.
Qed.

Lemma redirect_invariant db addrs rd :
  make_redirects asm db o2s addrs = Ok rd → redirect_inv asm o2s addrs rd.
Proof.
  intros Hrd. apply (redirect_loop_invariant addrs [] _ _) in Hrd; [done|].
  by split.
Qed.

End Redirecting.

Lemma NoDup_fmap_elem {A B} (f : A → B) (l : list A) x y :
  NoDup (f <$> l) → x ∈ l → y ∈ l → f x = f y → x = y.
Proof.
  intros Hnd Hx Hy Hf.
  apply list_elem_of_lookup in Hx as [i Hi].
  apply list_elem_of_lookup in Hy as [j Hj].
  assert (i = j).
  { apply (NoDup_lookup (f <$> l) i j (f x)); [done| |].
    - by rewrite list_lookup_fmap, Hi.
    - by rewrite list_lookup_fmap, Hj, Hf. }
  subst j. congruence.
Qed.

Lemma elem_of_concat {A} (x : A) (ls : list (list A)) :
  x ∈ concat ls ↔ ∃ l, x ∈ l ∧ l ∈ ls.
Proof.
  induction ls as [|l0 ls IH]; simpl.
  - split; [by intros ?%elem_of_nil|]. by intros (l & _ & ?%elem_of_nil).
  - rewrite elem_of_app, IH. split.
    + intros [Hx|(l & Hx & Hl)]; [exists l0; split; [done|left]|].
      exists l. split; [done|by right].
    + intros (l & Hx & Hl). apply elem_of_cons in Hl as [->|Hl]; [by left|].
      right. by exists l.
Qed.

Lemma redirected_example_Ok :
  make_redirects instruction_asm disassembled_db relocation_map_example
    [0x401000; 0x401020]
  = Ok redirected_example.
Proof. vm_compute. reflexivity. Qed.

(** C1: let the redirect loop succeed over distinct original addresses,
    the assembler answering on each stub one patch at the pinned address
    that decodes there to the instructions of the stub.  Then for every
    original address [a] that the relocation map sends to [b], the loop
    built the single-block graph holding the one jump to [b]; the location
    found bound to [a] was unbound and the location of the stub bound to
    [a] before assembling; the assembler was given no interval; and the
    patches hold at [a] bytes that decode to exactly the jump to [b], and
    no other bytes. *)
Theorem redirect_jumps_to_relocated_entry (asm : assembler)
    (decoder : Z → bytes → option (list instruction)) (db : LocationDB)
    (o2s : dict Z) (addrs : list Z) (rd : redirect_state) (a b : Z) :
  make_redirects asm db o2s addrs = Ok rd →
  NoDup addrs →
  Forall (stub_assembled decoder) (redirects rd) →
  a ∈ addrs →
  dict_get o2s a = Some b →
  ∃ r data,
    r ∈ redirects rd
    ∧ red_target_addr r = a
    ∧ red_cfg r = jmp_stub (red_original_loc r) b
    ∧ red_loc_db r
      = set_location_offset (unpin_offset (red_parsed_db r) a)
          (red_original_loc r) a
    ∧ (∀ l, get_offset_location (red_parsed_db r) a = Some l →
            l ≠ red_original_loc r →
            get_location_offset (red_loc_db r) l = None)
    ∧ get_location_offset (red_loc_db r) (red_original_loc r) = Some a
    ∧ red_interval r = None
    ∧ (∃ db', asm (red_loc_db r) (red_cfg r) None = Ok (db', [(a, data)]))
    ∧ (a, data) ∈ unmut_jmp_patches rd
    ∧ (∀ data', (a, data') ∈ unmut_jmp_patches rd → data' = data)
    ∧ decoder a data = Some [JMP b].
Proof.
  intros Hrd Hnd Hasm Ha Hb.
  destruct (redirect_invariant _ _ _ _ _ Hrd) as [Ht Hp Hwf].
  rewrite Forall_forall in Hwf, Hasm.
  (* What the assembler answered on a logged redirect. *)
  assert (Hanswer : ∀ r', r' ∈ redirects rd →
            ∃ data', red_patches r' = [(red_target_addr r', data')]
                     ∧ decoder (red_target_addr r') data'
                       = Some [JMP (red_simplified_func_addr r')]).
  { intros r' Hr'. specialize (Hasm r' Hr').
    destruct (Hwf r' Hr') as [_ Hcfg _ Hdb _ _].
    unfold stub_assembled in Hasm. rewrite Hcfg in Hasm; simpl in Hasm.
    rewrite Hdb, get_set_eq in Hasm.
    destruct (red_patches r') as [|[a' data'] [|? ?]]; try done.
    destruct Hasm as [-> Hdec]. by exists data'. }
  rewrite <- Ht in Ha. apply list_elem_of_fmap in Ha as (r & -> & Hr).
  destruct (Hanswer r Hr) as (data & Hps & Hdec).
  destruct (Hwf r Hr) as [Hdst Hcfg Hname Hdb Hitv [db' Hcall]].
  assert (red_simplified_func_addr r = b) as Hb' by congruence.
  rewrite Hb' in *. exists r, data.
  split; [done|]. split; [done|]. split; [done|]. split; [done|].
  split.
  { intros l Hl Hne. rewrite Hdb, get_set_ne by done.
    by apply unpin_offset_unbinds. }
  split; [rewrite Hdb; apply get_set_eq|]. split; [done|].
  split; [exists db'; by rewrite Hitv, Hps in Hcall|].
  split.
  { rewrite Hp. apply elem_of_concat. exists (red_patches r).
    split; [rewrite Hps; left|]. apply list_elem_of_fmap. by exists r. }
  split; [|done].
  intros data' Hin. rewrite Hp in Hin.
  apply elem_of_concat in Hin as (ps & Hin & Hps').
  apply list_elem_of_fmap in Hps' as (r' & -> & Hr').
  destruct (Hanswer r' Hr') as (data'' & Hps'' & _).
  rewrite Hps'' in Hin. apply list_elem_of_singleton in Hin.
  injection Hin as Hta ->.
  assert (r' = r).
  { apply (NoDup_fmap_elem red_target_addr (redirects rd)); try done.
    by rewrite Ht. }
  subst r'. congruence.
Qed.

Lemma redirect_jumps_to_relocated_entry_witness :
  ∃ r,
    r ∈ redirects redirected_example
    ∧ red_target_addr r = 0x401000
    ∧ get_offset_location (red_parsed_db r) 0x401000 = Some 50%positive
    ∧ get_location_offset (red_loc_db r) 50%positive = None
    ∧ get_location_offset (red_loc_db r) (red_original_loc r) = Some 0x401000
    ∧ red_interval r = None
    ∧ (0x401000, [xe9; xfb; x0f; x00; x00])
      ∈ unmut_jmp_patches redirected_example
    ∧ decode 0x401000 [xe9; xfb; x0f; x00; x00] = Some [JMP 0x402000].
Proof.
  destruct (redirect_jumps_to_relocated_entry instruction_asm decode
              disassembled_db relocation_map_example [0x401000; 0x401020]
              redirected_example 0x401000 0x402000)
    as (r & data & Hr & Ht & Hcfg & Hdb & Hunb & Hbound & Hitv & _ & Hin
        & Hone & Hdec);
    [ exact redirected_example_Ok | compute_done | compute_done | left
    | reflexivity | ].
  assert (Hdata : data = [xe9; xfb; x0f; x00; x00]).
  { symmetry. apply Hone. left. }
  rewrite Hdata in Hin, Hdec.
  assert (Hr0 : redirects redirected_example !! 0%nat = Some r).
  { apply list_elem_of_lookup in Hr as [i Hi].
    destruct i as [|[|i]]; [exact Hi | | ].
    - vm_compute in Hi. injection Hi as <-. discriminate Ht.
    - vm_compute in Hi. discriminate Hi. }
  assert (Hfound : get_offset_location (red_parsed_db r) 0x401000
                   = Some 50%positive
                   ∧ red_original_loc r ≠ 50%positive).
  { vm_compute in Hr0. injection Hr0 as <-. split; [reflexivity|discriminate]. }
  destruct Hfound as [Hfound Hne].
  exists r. split; [exact Hr|]. split; [exact Ht|]. split; [exact Hfound|].
  split; [apply (Hunb _ Hfound); congruence|].
  split; [exact Hbound|]. split; [exact Hitv|].
  split; [exact Hin | exact Hdec].
Defined.

(** ** The dictionary of functions *)

Lemma dict_get_set {V} (d : dict V) k v k' :
  dict_get (dict_set d k v) k'
  = if decide (k = k') then Some v else dict_get d k'.
Proof.
  induction d as [|[k0 v0] d IH]; simpl.
  - by destruct (decide (k = k')).
  - destruct (decide (k0 = k)) as [->|Hne]; simpl.
    + by destruct (decide (k = k')).
    + destruct (decide (k0 = k')) as [->|Hne'].
      * destruct (decide (k = k')); [congruence|done].
      * exact IH.
Qed.

Lemma dict_keys_set {V} (d : dict V) k v a :
  a ∈ dict_keys (dict_set d k v) ↔ a = k ∨ a ∈ dict_keys d.
Proof.
  unfold dict_keys. induction d as [|[k0 v0] d IH]; simpl.
  - rewrite list_elem_of_singleton, elem_of_nil. tauto.
  - destruct (decide (k0 = k)) as [->|Hne]; simpl.
    + rewrite !elem_of_cons. tauto.
    + rewrite !elem_of_cons, IH. tauto.
Qed.

Lemma NoDup_dict_set {V} (d : dict V) k v :
  NoDup (dict_keys d) → NoDup (dict_keys (dict_set d k v)).
Proof.
  induction d as [|[k0 v0] d IH]; simpl; intros Hnd.
  - apply NoDup_singleton.
  - unfold dict_keys in *. simpl in Hnd. apply NoDup_cons in Hnd as [Hnin Hnd].
    destruct (decide (k0 = k)) as [->|Hne]; simpl.
    + by apply NoDup_cons.
    + apply NoDup_cons. split; [|by apply IH].
      intros Hin. apply (dict_keys_set d k v k0) in Hin as [->|Hin]; done.
Qed.

Lemma func_map_from_foldl addrs cfgs i d :
  (i + length cfgs ≤ length addrs)%nat →
  func_map_from addrs i cfgs d
  = Ok (foldl set_item d (zip (drop i addrs) cfgs)).
Proof.
  revert i d. induction cfgs as [|c cfgs IH]; intros i d Hlen; simpl.
  - by destruct (drop i addrs).
  - simpl in Hlen.
    destruct (lookup_lt_is_Some_2 addrs i) as [a Ha]; [lia|].
    rewrite Ha; simpl. rewrite IH by lia.
    by rewrite (drop_S _ _ _ Ha).
Qed.

Lemma foldl_set_item_keys kvs d a :
  a ∈ dict_keys (foldl set_item d kvs) ↔ a ∈ dict_keys d ∨ a ∈ kvs.*1.
Proof.
  revert d. induction kvs as [|[k v] kvs IH]; intros d; simpl.
  - rewrite elem_of_nil. tauto.
  - rewrite IH. unfold set_item; simpl. rewrite dict_keys_set, elem_of_cons.
    tauto.
Qed.

Lemma foldl_set_item_NoDup kvs d :
  NoDup (dict_keys d) → NoDup (dict_keys (foldl set_item d kvs)).
Proof.
  revert d. induction kvs as [|[k v] kvs IH]; intros d Hnd; simpl; [done|].
  apply IH. by apply NoDup_dict_set.
Qed.

Lemma foldl_set_item_last kvs d i a c :
  kvs !! i = Some (a, c) →
  (∀ j c', (i < j)%nat → kvs !! j ≠ Some (a, c')) →
  dict_get (foldl set_item d kvs) a = Some c.
Proof.
  revert i. induction kvs as [|[k v] kvs IH] using rev_ind; intros i Hi Hlast.
  - done.
  - rewrite foldl_app; simpl. unfold set_item at 1; simpl.
    rewrite dict_get_set.
    destruct (decide (i < length kvs)%nat) as [Hlt|Hge].
    + rewrite lookup_app_l in Hi by done.
      destruct (decide (k = a)) as [->|Hne].
      * exfalso. apply (Hlast (length kvs) v Hlt).
        by rewrite lookup_app_r, Nat.sub_diag.
      * apply (IH i Hi). intros j c' Hj Hj'.
        apply (Hlast j c' Hj). apply lookup_app_l_Some, Hj'.
    + rewrite lookup_app_r in Hi by lia.
      apply list_lookup_singleton_Some in Hi as [_ [= -> ->]].
      by destruct (decide (a = a)).
Qed.

(** C10: when the address list and the list of simplified graphs have the
    same length, the dictionary is built without error, its keys are the
    distinct input addresses, each mapped to the graph at the index of the
    last occurrence of the address; the packing loop and the redirect loop
    then each run once per distinct address, not once per element of the
    input list. *)
Theorem duplicate_addresses_keep_last_cfg (addrs : list Z)
    (cfgs : list AsmCFG) :
  length addrs = length cfgs →
  ∃ d,
    func_addr_to_simplified_cfg addrs cfgs = Ok d
    ∧ NoDup (dict_keys d)
    ∧ (∀ a, a ∈ dict_keys d ↔ a ∈ addrs)
    ∧ (∀ a i, addrs !! i = Some a →
              (∀ j, (i < j)%nat → addrs !! j ≠ Some a) →
              is_Some (cfgs !! i) ∧ dict_get d a = cfgs !! i)
    ∧ length d = length (remove_dups addrs)
    ∧ (∀ asm base vsize db st,
         pack asm base vsize db d = Ok st →
         length (relocations st) = length (remove_dups addrs))
    ∧ (∀ asm db o2s rd,
         make_redirects asm db o2s (dict_keys d) = Ok rd →
         length (redirects rd) = length (remove_dups addrs)).
Proof.
  intros Hlen. eexists. split.
  { unfold func_addr_to_simplified_cfg. apply func_map_from_foldl. simpl. lia. }
  rewrite drop_0. set (d := foldl set_item [] (zip addrs cfgs)).
  assert (Hnd : NoDup (dict_keys d)) by (apply foldl_set_item_NoDup; constructor).
  assert (Hkeys : ∀ a, a ∈ dict_keys d ↔ a ∈ addrs).
  { intros a. subst d. rewrite foldl_set_item_keys, fst_zip by lia.
    unfold dict_keys; simpl. rewrite elem_of_nil. tauto. }
  assert (Hsize : length d = length (remove_dups addrs)).
  { rewrite <- (length_fmap fst d). apply Permutation_length.
    apply NoDup_Permutation; [done | apply NoDup_remove_dups |].
    intros a. rewrite elem_of_remove_dups. apply Hkeys. }
  split; [done|]. split; [done|]. split; [|split; [done|split]].
  - intros a i Hi Hlast.
    destruct (lookup_lt_is_Some_2 cfgs i) as [c Hc].
    { apply lookup_lt_Some in Hi. lia. }
    split; [by exists c|]. rewrite Hc. subst d.
    apply (foldl_set_item_last _ _ i).
    + by rewrite lookup_zip_with, Hi, Hc.
    + intros j c' Hj Hj'. apply (Hlast j Hj).
      apply lookup_zip_with_Some in Hj'
        as (a' & c'' & [= <- <-] & Ha' & _). done.
  - intros asm base vsize db st Hpack.
    destruct (pack_invariant _ _ _ _ _ _ Hpack) as [Ha _ _ _ _ _ _].
    rewrite <- Hsize, <- (length_fmap rel_func_addr), Ha. apply length_fmap.
  - intros asm db o2s rd Hrd.
    destruct (redirect_invariant _ _ _ _ _ Hrd) as [Ht _ _].
    rewrite <- Hsize, <- (length_fmap red_target_addr), Ht. apply length_fmap.
Qed.

Lemma duplicate_addresses_keep_last_cfg_witness :
  func_addr_to_simplified_cfg [0x401000; 0x401020; 0x401000]
    [cfg_two_blocks; cfg_one_block; cfg_long_block]
  = Ok [(0x401000, cfg_long_block); (0x401020, cfg_one_block)]
  ∧ ∃ d,
      func_addr_to_simplified_cfg [0x401000; 0x401020; 0x401000]
        [cfg_two_blocks; cfg_one_block; cfg_long_block] = Ok d
      ∧ dict_get d 0x401000 = Some cfg_long_block
      ∧ length d = 2%nat.
Proof.
  split; [reflexivity|].
  destruct (duplicate_addresses_keep_last_cfg
              [0x401000; 0x401020; 0x401000]
              [cfg_two_blocks; cfg_one_block; cfg_long_block])
    as (d & Hd & _ & _ & Hlast & Hsize & _); [reflexivity|].
  exists d. split; [exact Hd|]. split; [|exact Hsize].
  destruct (Hlast 0x401000 2%nat) as [_ Hget]; [reflexivity| |exact Hget].
  intros j Hj. destruct j as [|[|[|j]]]; try lia. discriminate.
Defined.

(** ** A whole run *)

(** The two functions of the example are packed into the new section and
    the code section receives, at each original address, the jump to the
    relocated entry. *)
Example rebuild_example :
  let out := rebuild_simplified_binary instruction_asm disassembled_db
               funcs_example (Some image_example) in
  raised out = None
  ∧ (λ pe, (λ s, (name s, take 5 (content s))) <$> sections pe) <$> written out
    = Some [(".text", [xe9; xfb; x0f; x00; x00]);
            (".unmut", [x31; xc0; x40; xc3; x00])]
  ∧ (λ pe, (λ s, decode 0x401020 (take 5 (drop 32 (content s))))
             <$> sections pe !! 0%nat) <$> written out
    = Some (Some (Some [JMP 0x402012])).
Proof. vm_compute. repeat split. Qed.

(** * Further properties of the code *)

(** ** Resolving the mutated code *)

Lemma unwrap_loop_Ok unwrap_function addrs acc out :
  unwrap_loop unwrap_function addrs acc = Ok out ↔
  ∃ ms, out = acc ++ ms
        ∧ Forall2 (λ a m, unwrap_function a = Ok m ∧ m ≠ a) addrs ms.
Proof.
  revert acc. induction addrs as [|a addrs IH]; intros acc; simpl.
  - split.
    + intros [= <-]. exists []. by rewrite app_nil_r.
    + intros (ms & -> & Hall). apply Forall2_nil_inv_l in Hall as ->.
      by rewrite app_nil_r.
  - destruct (unwrap_function a) as [m|e] eqn:Hu; simpl.
    + destruct (decide (m = a)) as [->|Hne].
      * split; [done|]. intros (ms & _ & Hall).
        apply Forall2_cons_inv_l in Hall as (m' & ms' & [Hm Hne] & _ & _).
        congruence.
      * rewrite IH. split.
        -- intros (ms & -> & Hall). exists (m :: ms).
           split; [by rewrite <- (assoc_L (++))|]. by constructor.
        -- intros (ms & -> & Hall).
           apply Forall2_cons_inv_l in Hall as (m' & ms' & [Hm _] & Hall & ->).
           exists ms'. replace m' with m by congruence.
           split; [by rewrite <- (assoc_L (++))|done].
    + split; [done|]. intros (ms & _ & Hall).
      apply Forall2_cons_inv_l in Hall as (m' & ms' & [Hm _] & _ & _).
      congruence.
Qed.

(** X1: the unwrapping of a list of addresses succeeds exactly when the
    unwrapper answers, for every address, an address different from it;
    the result then lists these answers in the order of the input (one per
    input address). *)
Theorem unwrap_functions_succeeds_iff (unwrap_function : Z → result Z)
    (addrs ms : list Z) :
  unwrap_functions unwrap_function addrs = Ok ms ↔
  Forall2 (λ a m, unwrap_function a = Ok m ∧ m ≠ a) addrs ms.
Proof.
  unfold unwrap_functions. rewrite unwrap_loop_Ok. split.
  - by intros (ms' & -> & Hall).
  - intros Hall. by exists ms.
Qed.

Lemma unwrap_loop_prefix unwrap_function pre rest acc :
  Forall (λ a, ∃ m, unwrap_function a = Ok m ∧ m ≠ a) pre →
  ∃ ms, length ms = length pre
        ∧ unwrap_loop unwrap_function (pre ++ rest) acc
          = unwrap_loop unwrap_function rest (acc ++ ms).
Proof.
  revert acc. induction pre as [|a pre IH]; intros acc Hall; simpl.
  - exists []. by rewrite app_nil_r.
  - apply Forall_cons in Hall as [(m & Hm & Hne) Hall].
    rewrite Hm; simpl. destruct (decide (m = a)); [done|].
    destruct (IH (acc ++ [m]) Hall) as (ms & Hlen & Heq).
    exists (m :: ms). split; [simpl; lia|].
    by rewrite Heq, <- (assoc_L (++)).
Qed.

(** X2: the first address that the unwrapper answers with itself stops
    the unwrapping with [Exception], and the first address on which the
    unwrapper raises stops it with that exception, whatever follows in
    the list. *)
Theorem unwrap_functions_stops_at_first_failure
    (unwrap_function : Z → result Z) (pre : list Z) (a : Z)
    (post : list Z) :
  Forall (λ x, ∃ m, unwrap_function x = Ok m ∧ m ≠ x) pre →
  (unwrap_function a = Ok a →
   unwrap_functions unwrap_function (pre ++ a :: post) = Raise Exception)
  ∧ (∀ e, unwrap_function a = Raise e →
          unwrap_functions unwrap_function (pre ++ a :: post) = Raise e).
Proof.
  intros Hpre. unfold unwrap_functions.
  destruct (unwrap_loop_prefix unwrap_function pre (a :: post) [] Hpre)
    as (ms & _ & ->).
  split.
  - intros Ha. simpl. rewrite Ha; simpl. by destruct (decide (a = a)).
  - intros e Ha. simpl. by rewrite Ha.
Qed.

Lemma unwrap_functions_stops_at_first_failure_witness :
  unwrap_functions unwrap_example [0x401000; 0x401020; 0x401040]
  = Raise Exception.
Proof.
  destruct (unwrap_functions_stops_at_first_failure unwrap_example
              [0x401000] 0x401020 [0x401040]) as [Hself _].
  - constructor; [|constructor]. exists 0x402500. split; [reflexivity|lia].
  - apply Hself. reflexivity.
Defined.

(** ** Looking a section up by address *)

(** X3: the lookup answers the first section of the image whose raw range
    [virtual_address, virtual_address + size) holds the address, and
    answers nothing exactly when no section does. *)
Theorem section_from_virtual_address_first_match (pe : Binary)
    (virtual_addr : Z) :
  (∀ i s,
     section_from_virtual_address pe virtual_addr = Some (i, s) ↔
     sections pe !! i = Some s
     ∧ holds_address virtual_addr s
     ∧ ∀ j s', sections pe !! j = Some s' → (j < i)%nat →
               ¬ holds_address virtual_addr s')
  ∧ (section_from_virtual_address pe virtual_addr = None ↔
     ∀ s, s ∈ sections pe → ¬ holds_address virtual_addr s).
Proof.
  unfold section_from_virtual_address. split.
  - intros i s. rewrite list_find_Some. unfold holds_address. done.
  - rewrite list_find_None, Forall_forall. unfold holds_address. done.
Qed.

(** ** The outcome of a rebuild *)

Lemma patch_image_outcome asm pe_obj unmut base d st :
  let out := patch_image asm pe_obj unmut base d st in
  (raised out = None ↔ is_Some (written out))
  ∧ (∀ pe, written out = Some pe → image out = Some pe).
Proof.
  unfold patch_image, apply_patches, abort.
  repeat match goal with
         | |- context [match ?x with _ => _ end] => destruct x
         end; simpl;
    (split; [split; [try done; by eexists | try done; by intros [? ?]]
            | try done]).
Qed.

Lemma rebuild_outcome asm loc_db (d : dict AsmCFG) parsed :
  let out := rebuild_simplified_binary asm loc_db d parsed in
  (raised out = None ↔ is_Some (written out))
  ∧ (∀ pe, written out = Some pe → image out = Some pe).
Proof.
  unfold rebuild_simplified_binary.
  destruct (decide (length d = 0%nat)).
  { split; [split; [done|by intros [? ?]]|done]. }
  destruct parsed as [pe_obj|].
  2: { split; [split; [done|by intros [? ?]]|done]. }
  generalize (add_section pe_obj new_unmut_section). intros pe1.
  destruct (get_section _ _) as [[unmut unmut_section]|].
  2: { split; [split; [done|by intros [? ?]]|done]. }
  destruct (pack _ _ _ _ _) as [st|e].
  2: { split; [split; [done|by intros [? ?]]|done]. }
  apply patch_image_outcome.
Qed.


(** ** What a rebuild changes in the image *)

Lemma set_content_headers pe i data :
  section_header <$> sections (set_content pe i data)
  = section_header <$> sections pe.
Proof.
  apply list_eq. intros k. simpl. rewrite !list_lookup_fmap.
  destruct (decide (i = k)) as [->|Hne].
  - rewrite list_lookup_alter_eq. by destruct (sections pe !! k).
  - by rewrite list_lookup_alter_ne.
Qed.

Lemma set_content_other pe i data k :
  i ≠ k → sections (set_content pe i data) !! k = sections pe !! k.
Proof. intros Hne. simpl. by rewrite list_lookup_alter_ne. Qed.

Lemma patch_image_image asm pe_obj unmut base d st pe' :
  image (patch_image asm pe_obj unmut base d st) = Some pe' →
  imagebase pe' = imagebase pe_obj
  ∧ section_header <$> sections pe' = section_header <$> sections pe_obj
  ∧ ∃ text, ∀ k, k ≠ unmut → k ≠ text →
                 sections pe' !! k = sections pe_obj !! k.
Proof.
  unfold patch_image, apply_patches, abort.
  set (pe1 := set_content pe_obj unmut _).
  assert (H1 : imagebase pe1 = imagebase pe_obj
               ∧ section_header <$> sections pe1
                 = section_header <$> sections pe_obj
               ∧ ∃ text : nat, ∀ k, k ≠ unmut → k ≠ text →
                   sections pe1 !! k = sections pe_obj !! k).
  { split; [done|]. split; [apply set_content_headers|].
    exists unmut. intros k Hu _. apply set_content_other. congruence. }
  destruct (dict_keys d !! 0%nat) as [first_addr|]; simpl;
    [|by intros [= <-]].
  destruct (section_from_virtual_address pe1 _) as [[text text_section]|];
    simpl; [|by intros [= <-]].
  destruct (make_redirects _ _ _ _) as [rd|e]; simpl; [|by intros [= <-]].
  intros [= <-]. split; [done|].
  split; [rewrite set_content_headers; apply set_content_headers|].
  exists text. intros k Hu Ht.
  rewrite set_content_other by congruence. apply set_content_other.
  congruence.
Qed.

Lemma new_unmut_section_length :
  Z.of_nat (length (content new_unmut_section)) = NEW_SECTION_MAX_SIZE.
Proof.
  unfold new_unmut_section. cbn [content]. rewrite length_replicate.
  apply Z2Nat.id. by vm_compute.
Qed.

Lemma add_section_headers pe :
  section_header <$> sections (add_section pe new_unmut_section)
  = (section_header <$> sections pe)
    ++ [(NEW_SECTION_NAME, next_virtual_address pe, NEW_SECTION_MAX_SIZE,
         NEW_SECTION_MAX_SIZE, CODE_READ_EXECUTE)].
Proof.
  unfold add_section. cbn [sections]. rewrite fmap_app.
  cbn [fmap list_fmap]. unfold section_header.
  cbn [name virtual_address virtual_size size characteristics].
  rewrite new_unmut_section_length. reflexivity.
Qed.

Lemma add_section_imagebase pe s :
  imagebase (add_section pe s) = imagebase pe.
Proof. reflexivity. Qed.



(** X5: whenever a rebuild holds an image in memory, at its end or when
    it stops on an exception, that image has the base of the parsed one
    and its section table with one section appended: the name, addresses,
    sizes and characteristics of the existing sections are never
    changed, and the appended section is [.unmut], of 65536 bytes, code,
    readable and executable. *)
Theorem rebuild_keeps_section_table (asm : assembler) (loc_db : LocationDB)
    (d : dict AsmCFG) (parsed : option Binary) (pe' : Binary) :
  image (rebuild_simplified_binary asm loc_db d parsed) = Some pe' →
  ∃ pe,
    parsed = Some pe
    ∧ imagebase pe' = imagebase pe
    ∧ section_header <$> sections pe'
      = (section_header <$> sections pe)
        ++ [(".unmut", next_virtual_address pe, 65536, 65536,
             CODE_READ_EXECUTE)].
Proof.
  unfold rebuild_simplified_binary.
  destruct (decide (length d = 0%nat)); [done|].
  destruct parsed as [pe|]; [|done]. intros Himg. exists pe.
  split; [done|].
  pose proof (add_section_headers pe) as Hadd.
  pose proof (add_section_imagebase pe new_unmut_section) as Hbase0.
  revert Himg Hadd Hbase0.
  generalize (add_section pe new_unmut_section). intros pe1 Himg Hadd Hbase0.
  destruct (get_section _ _) as [[unmut unmut_section]|].
  2: { injection Himg as <-. done. }
  destruct (pack _ _ _ _ _) as [st|e].
  2: { injection Himg as <-. done. }
  apply patch_image_image in Himg as (Hbase & Hheaders & _).
  rewrite Hbase, Hheaders. done.
Qed.

Lemma rebuild_keeps_section_table_witness :
  ∃ pe',
    written (rebuild_simplified_binary instruction_asm disassembled_db
               funcs_example (Some image_example)) = Some pe'
    ∧ imagebase pe' = 0x400000
    ∧ section_header <$> sections pe'
      = [(".text", 0x1000, 0x40, 0x40, CODE_READ_EXECUTE);
         (".unmut", 0x2000, 65536, 65536, CODE_READ_EXECUTE)].
Proof.
  destruct (written (rebuild_simplified_binary instruction_asm
                       disassembled_db funcs_example (Some image_example)))
    as [pe'|] eqn:Hw; [|by vm_compute in Hw].
  exists pe'. split; [reflexivity|].
  destruct (rebuild_outcome instruction_asm disassembled_db
              funcs_example (Some image_example)) as [_ Himg].
  destruct (rebuild_keeps_section_table instruction_asm disassembled_db
              funcs_example (Some image_example) pe' (Himg pe' Hw))
    as (pe & [= <-] & Hbase & Hheaders).
  split; [exact Hbase | exact Hheaders].
Defined.



(** ** Patches within and beyond the buffer *)

Lemma write_patch_in_range base content p :
  in_range base (length content) p →
  write_patch base content p
  = take (Z.to_nat (p.1 - base)) content ++ p.2
    ++ drop (Z.to_nat (p.1 - base) + length p.2) content.
Proof.
  intros [Hlo Hhi]. unfold write_patch. by apply setslice_in_range.
Qed.

Lemma write_patch_length base content p :
  in_range base (length content) p →
  length (write_patch base content p) = length content.
Proof.
  intros Hin. rewrite write_patch_in_range by done. destruct Hin as [Hlo Hhi].
  rewrite !length_app, length_take, length_drop. lia.
Qed.

Lemma write_patch_lookup_inside base content p k :
  in_range base (length content) p →
  (k < length p.2)%nat →
  write_patch base content p !! (Z.to_nat (p.1 - base) + k)%nat = p.2 !! k.
Proof.
  intros Hin Hk. rewrite write_patch_in_range by done. destruct Hin as [Hlo Hhi].
  assert (Hlen : length (take (Z.to_nat (p.1 - base)) content)
                 = Z.to_nat (p.1 - base)) by (rewrite length_take; lia).
  rewrite lookup_app_r by lia. rewrite Hlen, lookup_app_l by lia.
  f_equal. lia.
Qed.

Lemma write_patch_lookup_outside base content p k :
  in_range base (length content) p →
  (k < Z.to_nat (p.1 - base)
   ∨ Z.to_nat (p.1 - base) + length p.2 ≤ k)%nat →
  write_patch base content p !! k = content !! k.
Proof.
  intros Hin Hk. rewrite write_patch_in_range by done. destruct Hin as [Hlo Hhi].
  assert (Hlen : length (take (Z.to_nat (p.1 - base)) content)
                 = Z.to_nat (p.1 - base)) by (rewrite length_take; lia).
  destruct Hk as [Hk|Hk].
  - rewrite lookup_app_l by lia. by rewrite lookup_take_lt.
  - rewrite lookup_app_r by lia. rewrite lookup_app_r by lia.
    rewrite lookup_drop, Hlen. f_equal. lia.
Qed.

Lemma foldl_write_patch_length base ps content :
  Forall (in_range base (length content)) ps →
  length (foldl (write_patch base) content ps) = length content.
Proof.
  revert content. induction ps as [|p ps IH]; intros content Hall; simpl;
    [done|].
  apply Forall_cons in Hall as [Hp Hall].
  rewrite IH; rewrite write_patch_length; done.
Qed.

(** X7: applying patches that all lie within the content buffer never
    changes the length of the buffer. *)
Theorem patches_in_range_keep_length (section_base : Z) (content : bytes)
    (patches : list patch) :
  Forall (in_range section_base (length content)) patches →
  ∃ out, apply_patches section_base content patches = Ok out
         ∧ length out = length content.
Proof.
  intros Hall. eexists. split; [reflexivity|].
  by apply foldl_write_patch_length.
Qed.

Lemma patches_in_range_keep_length_witness :
  ∃ out,
    apply_patches 0x1000 [x00; x00; x00; x00]
      [(0x1001, [x01; x02]); (0x1000, [x03])] = Ok out
    ∧ length out = 4%nat.
Proof.
  apply (patches_in_range_keep_length 0x1000 [x00; x00; x00; x00]
           [(0x1001, [x01; x02]); (0x1000, [x03])]).
  repeat constructor; simpl; lia.
Defined.

Lemma foldl_write_patch_untouched base ps content p k :
  Forall (in_range base (length content)) ps →
  in_range base (length content) p →
  Forall (λ q, patch_end p ≤ q.1 ∨ patch_end q ≤ p.1) ps →
  (k < length p.2)%nat →
  foldl (write_patch base) content ps !! (Z.to_nat (p.1 - base) + k)%nat
  = content !! (Z.to_nat (p.1 - base) + k)%nat.
Proof.
  revert content. induction ps as [|q ps IH]; intros content Hall Hp Hdisj Hk;
    simpl; [done|].
  apply Forall_cons in Hall as [Hq Hall].
  apply Forall_cons in Hdisj as [Hpq Hdisj].
  rewrite IH; rewrite ?write_patch_length; try done.
  apply write_patch_lookup_outside; [done|].
  destruct Hp as [Hp1 Hp2], Hq as [Hq1 Hq2]. unfold patch_end in Hpq. lia.
Qed.

(** X8: when all patches lie within the content buffer, the bytes of a
    patch are found at its offset in the final content as soon as no
    later patch of the list overlaps it; in particular the last patch
    always wins. *)
Theorem patch_survives_unless_overwritten (section_base : Z)
    (content : bytes) (before : list patch) (p : patch)
    (after : list patch) (k : nat) :
  Forall (in_range section_base (length content)) (before ++ p :: after) →
  Forall (λ q, patch_end p ≤ q.1 ∨ patch_end q ≤ p.1) after →
  (k < length p.2)%nat →
  ∃ out,
    apply_patches section_base content (before ++ p :: after) = Ok out
    ∧ out !! (Z.to_nat (p.1 - section_base) + k)%nat = p.2 !! k.
Proof.
  intros Hall Hdisj Hk. eexists. split; [reflexivity|].
  apply Forall_app in Hall as [Hbefore Hall].
  apply Forall_cons in Hall as [Hp Hafter].
  rewrite foldl_app; simpl.
  pose proof (foldl_write_patch_length _ _ _ Hbefore) as Hlen.
  rewrite foldl_write_patch_untouched;
    rewrite ?write_patch_length; rewrite ?Hlen; try done.
  apply write_patch_lookup_inside; [by rewrite Hlen|done].
Qed.

Lemma patch_survives_unless_overwritten_witness :
  ∃ out,
    apply_patches 0x1000 [x00; x00; x00; x00]
      [(0x1001, [x01; x02]); (0x1001, [x03; x04]); (0x1000, [x05])] = Ok out
    ∧ out !! 2%nat = Some x04.
Proof.
  apply (patch_survives_unless_overwritten 0x1000 [x00; x00; x00; x00]
           [(0x1001, [x01; x02])] (0x1001, [x03; x04]) [(0x1000, [x05])]
           1%nat).
  - repeat constructor; simpl; lia.
  - constructor; [|constructor]. right. unfold patch_end. simpl. lia.
  - simpl. lia.
Defined.

(** X9: a patch that starts at a non-negative offset and reaches beyond
    the end of the content buffer is not refused: the buffer is cut at the
    offset and the bytes of the patch are appended, so the buffer grows
    (unless the patch is empty); when the patch starts beyond the end, its
    bytes do not even land at its offset but directly after the old
    content. *)
Theorem patch_beyond_the_end_grows_buffer (section_base : Z)
    (content : bytes) (p : patch) :
  0 ≤ p.1 - section_base →
  Z.of_nat (length content) < p.1 - section_base + Z.of_nat (length p.2) →
  write_patch section_base content p
  = take (Z.to_nat (p.1 - section_base)) content ++ p.2
  ∧ (p.2 ≠ [] →
     (length content < length (write_patch section_base content p))%nat)
  ∧ (Z.of_nat (length content) ≤ p.1 - section_base →
     write_patch section_base content p = content ++ p.2).
Proof.
  intros Hlo Hhi.
  assert (Heq : write_patch section_base content p
                = take (Z.to_nat (p.1 - section_base)) content ++ p.2).
  { unfold write_patch, setslice, adjust_index.
    repeat case_decide; try lia.
    set (stop := _ `max` _).
    assert (Z.of_nat (length content) ≤ stop) by (subst stop; lia).
    clearbody stop.
    rewrite drop_ge by lia. rewrite app_nil_r. f_equal.
    destruct (decide (p.1 - section_base ≤ Z.of_nat (length content))).
    - f_equal. lia.
    - rewrite !take_ge by lia. done. }
  split; [done|]. split.
  - intros Hne. rewrite Heq, length_app, length_take.
    destruct (p.2) as [|b data]; [done|]. simpl in *. lia.
  - intros Hge. rewrite Heq, take_ge; [done|lia].
Qed.

Lemma patch_beyond_the_end_grows_buffer_witness :
  write_patch 0x1000 [x00; x00; x00; x00] (0x1009, [x01; x02])
  = [x00; x00; x00; x00; x01; x02].
Proof.
  destruct (patch_beyond_the_end_grows_buffer 0x1000 [x00; x00; x00; x00]
              (0x1009, [x01; x02])) as (_ & _ & Happend);
    [simpl; lia | simpl; lia |].
  apply Happend. simpl. lia.
Defined.

(** ** The buffer of the new section *)

Lemma packed_cursor_nonneg (asm : assembler) (base vsize : Z)
    (db : LocationDB) (items : dict AsmCFG) (st : pack_state) (i : nat)
    (r : relocation) :
  pack asm base vsize db items = Ok st →
  Forall placed_in_interval (relocations st) →
  relocations st !! i = Some r →
  0 ≤ rel_cursor r.
Proof.
  intros Hpack Hplaced. revert r.
  induction i as [|i IH]; intros r Hi.
  - by rewrite (packed_first _ _ _ _ _ _ Hpack r Hi).
  - destruct (lookup_lt_is_Some_2 (relocations st) i) as [r0 Hr0].
    { apply lookup_lt_Some in Hi. lia. }
    rewrite (packed_next _ _ _ _ _ _ Hpack i r0 r Hr0 Hi).
    specialize (IH r0 Hr0).
    apply list_elem_of_lookup_2 in Hr0 as Hin.
    rewrite Forall_forall in Hplaced.
    destruct (packed_nonempty _ _ _ _ _ _ Hpack r0 Hin) as [p Hp].
    destruct (packed_bounds _ _ _ _ _ _ Hpack r0 p Hin (Hplaced _ Hin) Hp)
      as (? & ? & _).
    lia.
Qed.

Lemma packed_top_below_final (asm : assembler) (base vsize : Z)
    (db : LocationDB) (items : dict AsmCFG) (st : pack_state)
    (r : relocation) :
  pack asm base vsize db items = Ok st →
  Forall placed_in_interval (relocations st) →
  r ∈ relocations st →
  rel_top r - base + 15 ≤ next_min_offset_for_asm st.
Proof.
  intros Hpack Hplaced Hin.
  rewrite (packed_final _ _ _ _ _ _ Hpack). unfold cursor_after.
  apply list_elem_of_lookup in Hin as [i Hi].
  apply lookup_lt_Some in Hi as Hlt.
  rewrite last_lookup.
  destruct (lookup_lt_is_Some_2 (relocations st)
              (pred (length (relocations st)))) as [rl Hrl]; [lia|].
  rewrite Hrl.
  destruct (decide (i = pred (length (relocations st)))) as [->|Hne].
  - replace rl with r by congruence. lia.
  - assert (Hlast : (i < pred (length (relocations st)))%nat) by lia.
    pose proof (packed_order _ _ _ _ _ _ Hpack i _ r rl Hplaced
                  Hlast Hi Hrl) as Hord.
    apply list_elem_of_lookup_2 in Hrl as Hrlin.
    rewrite Forall_forall in Hplaced.
    destruct (packed_nonempty _ _ _ _ _ _ Hpack rl Hrlin) as [p Hp].
    destruct (packed_bounds _ _ _ _ _ _ Hpack rl p Hrlin (Hplaced _ Hrlin) Hp)
      as (? & ? & _).
    lia.
Qed.

(** X10: after a successful packing in which no patch starts below the
    lower bound of its interval and no patch is longer than 15 bytes, the
    buffer allocated for the new section (of [next_min_offset_for_asm]
    bytes, line 147) holds every patch: each patch lies within it, and
    writing them all leaves its length unchanged. *)
Theorem packed_patches_fit_new_content (asm : assembler) (base vsize : Z)
    (db : LocationDB) (items : dict AsmCFG) (st : pack_state) :
  pack asm base vsize db items = Ok st →
  Forall placed_in_interval (relocations st) →
  Forall short_patches (relocations st) →
  let new_section_size := next_min_offset_for_asm st in
  0 ≤ new_section_size
  ∧ Forall (in_range base (Z.to_nat new_section_size))
      (unmut_section_patches st)
  ∧ ∃ new_content,
      apply_patches base (replicate (Z.to_nat new_section_size) x00)
        (unmut_section_patches st) = Ok new_content
      ∧ Z.of_nat (length new_content) = new_section_size.
Proof.
  intros Hpack Hplaced Hshort new_section_size.
  assert (Hall : ∀ r p, r ∈ relocations st → p ∈ rel_patches r →
            0 ≤ p.1 - base
            ∧ p.1 - base + Z.of_nat (length p.2) ≤ new_section_size).
  { intros r p Hr Hp.
    pose proof (packed_top_below_final _ _ _ _ _ _ r Hpack Hplaced Hr) as Htop.
    apply list_elem_of_lookup in Hr as Hi. destruct Hi as [i Hi].
    pose proof (packed_cursor_nonneg _ _ _ _ _ _ i r Hpack Hplaced Hi) as Hc.
    rewrite Forall_forall in Hplaced, Hshort.
    destruct (packed_bounds _ _ _ _ _ _ Hpack r p Hr (Hplaced _ Hr) Hp)
      as (? & ? & _).
    specialize (Hshort r Hr). unfold short_patches in Hshort.
    rewrite Forall_forall in Hshort. specialize (Hshort p Hp).
    subst new_section_size. lia. }
  assert (Hsize : 0 ≤ new_section_size).
  { subst new_section_size. rewrite (packed_final _ _ _ _ _ _ Hpack).
    unfold cursor_after. destruct (last (relocations st)) as [r|] eqn:Hlast;
      [|done].
    rewrite last_lookup in Hlast.
    apply list_elem_of_lookup_2 in Hlast as Hr.
    destruct (packed_nonempty _ _ _ _ _ _ Hpack r Hr) as [p Hp].
    pose proof (packed_cursor_nonneg _ _ _ _ _ _ _ r Hpack Hplaced Hlast).
    rewrite Forall_forall in Hplaced.
    destruct (packed_bounds _ _ _ _ _ _ Hpack r p Hr (Hplaced _ Hr) Hp)
      as (? & ? & _).
    lia. }
  assert (Hfit : Forall (in_range base (Z.to_nat new_section_size))
                   (unmut_section_patches st)).
  { destruct (pack_invariant _ _ _ _ _ _ Hpack) as [_ _ Hp _ _ _ _].
    rewrite Hp. apply Forall_forall. intros p Hin.
    apply elem_of_concat in Hin as (ps & Hin & Hps).
    apply list_elem_of_fmap in Hps as (r & -> & Hr).
    destruct (Hall r p Hr Hin). unfold in_range. lia. }
  split; [done|]. split; [done|].
  eexists. split; [reflexivity|].
  rewrite foldl_write_patch_length; rewrite length_replicate; [lia|done].
Qed.

Lemma packed_patches_fit_new_content_witness :
  next_min_offset_for_asm packed_example = 34
  ∧ Forall (in_range 0x402000 34) (unmut_section_patches packed_example)
  ∧ ∃ new_content,
      apply_patches 0x402000 (replicate 34 x00)
        (unmut_section_patches packed_example) = Ok new_content
      ∧ Z.of_nat (length new_content) = 34.
Proof.
  assert (Hsize : next_min_offset_for_asm packed_example = 34)
    by (vm_compute; reflexivity).
  split; [exact Hsize|].
  destruct (packed_patches_fit_new_content instruction_asm 0x402000 0x10000
              empty_db funcs_example packed_example)
    as (_ & Hfit & Hcontent);
    [exact packed_example_Ok | compute_done | compute_done |].
  rewrite Hsize in Hfit, Hcontent. split; [exact Hfit | exact Hcontent].
Defined.

(** ** How the loops fail *)










(** ** The labels of the stubs *)

Fixpoint of_pos_head (p : positive) (rest : string) {struct p} :
  head_is_not_minus rest →
  head_is_not_minus (HexString.Raw.of_pos p rest)
  ∧ HexString.Raw.of_pos p rest ≠ EmptyString.
Proof.
  intros Hrest.
  do 4 try destruct p as [p|p|]; cbn;
    try (apply of_pos_head; cbn; discriminate);
    split; discriminate.
Qed.

Lemma of_pos_injective p q :
  HexString.Raw.of_pos p "" = HexString.Raw.of_pos q "" → p = q.
Proof.
  intros Heq.
  pose proof (HexString.Raw.to_N_of_pos p "" 0%N) as Hp.
  pose proof (HexString.Raw.to_N_of_pos q "" 0%N) as Hq.
  rewrite Heq in Hp. rewrite Hp in Hq. simpl in Hq. congruence.
Qed.

(** X14: the hexadecimal rendering of the addresses is injective, so the
    labels [loc_<address>] given to the stubs of two different addresses
    (line 165) are different. *)
Theorem stub_labels_are_distinct (a b : Z) :
  ("loc_" +:+ format_x a = "loc_" +:+ format_x b → a = b)
  ∧ (format_x a = format_x b → a = b).
Proof.
  assert (Hinj : format_x a = format_x b → a = b).
  { destruct a as [|p|p], b as [|q|q]; simpl; intros Heq; try done.
    - destruct (of_pos_head q "" I) as [_ Hne].
      pose proof (HexString.Raw.to_N_of_pos q "" 0%N) as Hq.
      rewrite <- Heq in Hq. done.
    - pose proof (HexString.Raw.to_N_of_pos p "" 0%N) as Hp.
      rewrite Heq in Hp. done.
    - f_equal. by apply of_pos_injective.
    - destruct (of_pos_head p "" I) as [Hhead _].
      rewrite Heq in Hhead. by simpl in Hhead.
    - destruct (of_pos_head q "" I) as [Hhead _].
      rewrite <- Heq in Hhead. by simpl in Hhead.
    - f_equal. injection Heq as Heq. by apply of_pos_injective. }
  split; [|done]. intros Heq. apply Hinj. by injection Heq.
Qed.

Lemma stub_labels_are_distinct_witness :
  "loc_" +:+ format_x 0x401000 = "loc_401000"
  ∧ "loc_" +:+ format_x 0x401000 ≠ "loc_" +:+ format_x 0x401020.
Proof.
  split; [reflexivity|]. intros Heq.
  apply (proj1 (stub_labels_are_distinct 0x401000 0x401020)) in Heq.
  discriminate Heq.
Defined.

(** ** Lists of different lengths in the entry point *)

Lemma func_map_from_short addrs cfgs i d :
  (i ≤ length addrs)%nat →
  (length addrs < i + length cfgs)%nat →
  func_map_from addrs i cfgs d = Raise IndexError.
Proof.
  revert i d. induction cfgs as [|c cfgs IH]; intros i d Hi Hlen; simpl in *;
    [lia|].
  destruct (addrs !! i) as [a|] eqn:Ha; simpl; [|done].
  apply lookup_lt_Some in Ha. apply IH; lia.
Qed.

(** X15: the dictionary of the entry point pairs the addresses and the
    graphs by index.  With more graphs than addresses its construction
    raises [IndexError]; with fewer, the addresses beyond the last graph
    are silently left out: the dictionary is the one of the truncated
    address list, and its keys are the addresses of that prefix. *)
Theorem func_map_of_unequal_lists (addrs : list Z) (cfgs : list AsmCFG) :
  ((length addrs < length cfgs)%nat →
   func_addr_to_simplified_cfg addrs cfgs = Raise IndexError)
  ∧ ((length cfgs ≤ length addrs)%nat →
     ∃ d,
       func_addr_to_simplified_cfg addrs cfgs = Ok d
       ∧ func_addr_to_simplified_cfg (take (length cfgs) addrs) cfgs = Ok d
       ∧ ∀ a, a ∈ dict_keys d ↔ a ∈ take (length cfgs) addrs).
Proof.
  unfold func_addr_to_simplified_cfg. split.
  - intros Hlt. apply func_map_from_short; simpl; lia.
  - intros Hle. eexists. split; [apply func_map_from_foldl; simpl; lia|].
    rewrite drop_0. split.
    + rewrite func_map_from_foldl by (rewrite length_take; simpl; lia).
      rewrite drop_0. do 2 f_equal.
      apply list_eq. intros k. rewrite !lookup_zip_with.
      destruct (decide (k < length cfgs)%nat) as [Hk|Hk].
      * by rewrite lookup_take_lt.
      * rewrite (lookup_ge_None_2 cfgs k) by lia.
        by destruct (addrs !! k), (take (length cfgs) addrs !! k).
    + intros a. rewrite foldl_set_item_keys. unfold dict_keys at 1; simpl.
      rewrite elem_of_nil.
      replace ((zip addrs cfgs).*1) with (take (length cfgs) addrs); [tauto|].
      apply list_eq. intros k. rewrite list_lookup_fmap, lookup_zip_with.
      destruct (decide (k < length cfgs)%nat) as [Hk|Hk].
      * rewrite lookup_take_lt by done.
        destruct (lookup_lt_is_Some_2 cfgs k Hk) as [c ->].
        by destruct (addrs !! k).
      * rewrite lookup_take_ge by lia.
        rewrite (lookup_ge_None_2 cfgs k) by lia. by destruct (addrs !! k).
Qed.

Lemma func_map_of_unequal_lists_witness :
  func_addr_to_simplified_cfg [0x401000] [cfg_two_blocks; cfg_one_block]
  = Raise IndexError
  ∧ ∃ d,
      func_addr_to_simplified_cfg [0x401000; 0x401020] [cfg_two_blocks]
      = Ok d
      ∧ ∀ a, a ∈ dict_keys d ↔ a ∈ [0x401000].
Proof.
  split.
  - apply (func_map_of_unequal_lists [0x401000]
             [cfg_two_blocks; cfg_one_block]). simpl. lia.
  - destruct (func_map_of_unequal_lists [0x401000; 0x401020]
                [cfg_two_blocks]) as [_ Hfew].
    destruct Hfew as (d & Hd & _ & Hkeys); [simpl; lia|].
    exists d. split; [exact Hd | exact Hkeys].
Defined.

(** ** The entry point *)

Lemma rebuild_written_parsed asm loc_db (d : dict AsmCFG) parsed pe' :
  written (rebuild_simplified_binary asm loc_db d parsed) = Some pe' →
  d ≠ [] ∧ is_Some parsed.
Proof.
  unfold rebuild_simplified_binary.
  destruct (decide (length d = 0%nat)); [done|].
  destruct parsed as [pe|]; [|done]. intros _. split; [|by eexists].
  by destruct d.
Qed.

(** X16: the entry point writes a file only if the context could be
    built, the image parsed, the address list is not empty and the
    unwrapper answered, for every address of the list, an address
    different from it. *)
Theorem entry_point_writes_only_if_all_unwrapped (asm : assembler)
    (miasm_context : result LocationDB) (unwrap_function : Z → result Z)
    (disassemble_and_simplify_functions :
       LocationDB → list Z → result (LocationDB * list AsmCFG))
    (protected_func_addrs : list Z) (parsed : option Binary) (pe' : Binary) :
  written (entry_point asm miasm_context unwrap_function
             disassemble_and_simplify_functions protected_func_addrs parsed)
  = Some pe' →
  is_Some parsed
  ∧ (∃ loc_db, miasm_context = Ok loc_db)
  ∧ protected_func_addrs ≠ []
  ∧ Forall (λ a, ∃ m, unwrap_function a = Ok m ∧ m ≠ a) protected_func_addrs.
Proof.
  unfold entry_point.
  destruct miasm_context as [loc_db|e]; [|done].
  destruct (unwrap_functions _ _) as [ms|e] eqn:Hunwrap; [|done].
  destruct (disassemble_and_simplify_functions _ _) as [[db' cfgs]|e];
    [|done].
  destruct (func_addr_to_simplified_cfg _ _) as [d|e] eqn:Hd; [|done].
  intros Hw. apply rebuild_written_parsed in Hw as [Hne Hparsed].
  split; [done|]. split; [by eexists|]. split.
  - intros ->. apply Hne. unfold func_addr_to_simplified_cfg in Hd.
    destruct cfgs; simpl in Hd; [by injection Hd|done].
  - unfold unwrap_functions in Hunwrap.
    apply unwrap_loop_Ok in Hunwrap as (ms' & _ & Hunwrap).
    clear -Hunwrap. induction Hunwrap as [|a m addrs ms [Hm Hne] _ IH];
      constructor; [by exists m|done].
Qed.

Lemma entry_point_writes_only_if_all_unwrapped_witness :
  ∃ pe',
    written (entry_point instruction_asm (Ok disassembled_db) unwrap_example
               simplify_example [0x401000; 0x401010] (Some image_example))
    = Some pe'
    ∧ Forall (λ a, ∃ m, unwrap_example a = Ok m ∧ m ≠ a)
        [0x401000; 0x401010].
Proof.
  destruct (written (entry_point instruction_asm (Ok disassembled_db)
                       unwrap_example simplify_example [0x401000; 0x401010]
                       (Some image_example))) as [pe'|] eqn:Hw;
    [|by vm_compute in Hw].
  exists pe'. split; [reflexivity|].
  destruct (entry_point_writes_only_if_all_unwrapped _ _ _ _ _ _ _ Hw)
    as (_ & _ & _ & Hall).
  exact Hall.
Defined.
